(** * Translation submission (wagtail_localize/views/submit_translations.py)

    A shallow embedding of [TranslationCreator.create_translations] and of
    [SubmitTranslationView.post], with the database tables the two write to
    (translation sources and translations) kept as lists of rows, the
    creator's [seen_objects] as a finite set, and exceptions and the
    transaction boundary made explicit. *)

From stdpp Require Import gmap list.

(** ** Data model *)

(** [instance.translation_key]: the identity shared by all locale copies. *)
Definition TranslationKey := nat.
(** A [Locale] row, identified by its [id]. *)
Definition Locale := nat.
Definition User := nat.

(** A translatable model instance (a page or a snippet). *)
Record Instance := mkInstance {
  translation_key : TranslationKey;
  locale : Locale;
  is_page : bool;            (* isinstance(instance, Page) *)
  numchild : nat;            (* the stored counter of a page's children *)
}.

(** A row of [TranslationSource]. *)
Record TranslationSource := mkSource {
  object_id : TranslationKey;
  source_locale : Locale;
}.

(** A row of [Translation]. *)
Record Translation := mkTranslation {
  source : TranslationSource;
  target_locale : Locale;
}.

#[global] Instance Instance_eq_dec : EqDecision Instance.
Proof. solve_decision. Defined.
#[global] Instance TranslationSource_eq_dec : EqDecision TranslationSource.
Proof. solve_decision. Defined.
#[global] Instance Translation_eq_dec : EqDecision Translation.
Proof. solve_decision. Defined.

(** The two tables the view writes to, in insertion order. *)
Record Database := mkDatabase {
  sources : list TranslationSource;
  translations : list Translation;
}.

(** What a run does to the outside, in the order it does it. *)
Inductive Event :=
| SourceCreated (s : TranslationSource)
| TranslationCreated (t : Translation)
| SaveTarget (t : Translation) (u : User).

(** The calls into the storage layer that may raise. *)
Inductive StorageOp :=
| OpSource (k : TranslationKey)
| OpTranslation (s : TranslationSource) (l : Locale)
| OpSaveTarget (t : Translation).

Inductive Exception :=
| DatabaseError (op : StorageOp)
| DoesNotExist (k : TranslationKey) (l : Locale).

(** The collaborators of the view that live outside this file. *)
Record World := mkWorld {
  (* [page.specific]: the same page as an instance of its own class *)
  specific : Instance -> Instance;
  (* [source.relatedobjectsegment_set.all()], each segment given by the
     translation key of its [object] *)
  relatedobjectsegment_set : TranslationSource -> list TranslationKey;
  (* [translatable_object.get_instance(locale)] *)
  get_instance : TranslationKey -> Locale -> option Instance;
  (* [Locale.objects.all()] *)
  Locale_objects : list Locale;
  (* forced failures of the storage layer *)
  storage_fails : StorageOp -> bool;
}.

#[local] Set Warnings "-register-all".

(** A page with the pages below it ([get_children]). The [numchild] of a
    page is a column of its own and need not agree with the children. *)
Inductive TreeNode :=
| Node (node_instance : Instance) (node_children : list TreeNode).

Definition node_instance (n : TreeNode) : Instance :=
  match n with Node i _ => i end.
Definition get_children (n : TreeNode) : list TreeNode :=
  match n with Node _ cs => cs end.

(** ** Mutable state and the monad of a run *)

Record State := mkState {
  seen_objects : gset TranslationKey;    (* self.seen_objects *)
  db : Database;
  trace : list Event;
}.

Inductive Outcome (A : Type) :=
| Returns (a : A)
| Raises (e : Exception)
| OutOfFuel.
Arguments Returns {A} a.
Arguments Raises {A} e.
Arguments OutOfFuel {A}.

Definition M (A : Type) := State -> Outcome (A * State).

Definition ret {A} (a : A) : M A := fun st => Returns (a, st).

Definition bind {A B} (m : M A) (k : A -> M B) : M B :=
  fun st =>
    match m st with
    | Returns (a, st') => k a st'
    | Raises e => Raises e
    | OutOfFuel => OutOfFuel
    end.

Definition raise {A} (e : Exception) : M A := fun _ => Raises e.
Definition out_of_fuel {A} : M A := fun _ => OutOfFuel.

Declare Scope run_scope.
Delimit Scope run_scope with run.
Notation "'do' x <- m ; k" := (bind m (fun x => k))
  (at level 10, x name, m at level 100, k at level 200) : run_scope.
Open Scope run_scope.

(** [for x in xs: body(x)] *)
Definition for_each {X} (body : X -> M unit) : list X -> M unit :=
  fix go xs :=
    match xs with
    | [] => ret tt
    | x :: xs' => do _ <- body x; go xs'
    end.

Definition get_seen : M (gset TranslationKey) :=
  fun st => Returns (seen_objects st, st).

(** [self.seen_objects.add(k)] *)
Definition add_seen (k : TranslationKey) : M unit :=
  fun st => Returns (tt, mkState ({[k]} ∪ seen_objects st) (db st) (trace st)).

Definition insert_source (s : TranslationSource) (st : State) : State :=
  mkState (seen_objects st)
          (mkDatabase (sources (db st) ++ [s]) (translations (db st)))
          (trace st ++ [SourceCreated s]).

Definition insert_translation (t : Translation) (st : State) : State :=
  mkState (seen_objects st)
          (mkDatabase (sources (db st)) (translations (db st) ++ [t]))
          (trace st ++ [TranslationCreated t]).

Definition find_source (k : TranslationKey) (d : Database)
  : option TranslationSource :=
  find (fun s => bool_decide (object_id s = k)) (sources d).

Definition find_translation (s : TranslationSource) (l : Locale) (d : Database)
  : option Translation :=
  find (fun t => bool_decide (t = mkTranslation s l)) (translations d).

Section Run.

Variable w : World.

(** Modelled from the spec: [TranslationSource.get_or_create_from_instance]
    is defined in wagtail_localize/models.py. It returns the source kept for
    the object's identity, or creates one, with a flag that tells which. *)
Definition get_or_create_from_instance (instance : Instance)
  : M (TranslationSource * bool) :=
  fun st =>
    if storage_fails w (OpSource (translation_key instance))
    then Raises (DatabaseError (OpSource (translation_key instance)))
    else
      match find_source (translation_key instance) (db st) with
      | Some s => Returns ((s, false), st)
      | None =>
          let s := mkSource (translation_key instance) (locale instance) in
          Returns ((s, true), insert_source s st)
      end.

(** [Translation.objects.get_or_create(source=..., target_locale=...)] *)
Definition Translation_get_or_create (s : TranslationSource) (l : Locale)
  : M (Translation * bool) :=
  fun st =>
    if storage_fails w (OpTranslation s l)
    then Raises (DatabaseError (OpTranslation s l))
    else
      match find_translation s l (db st) with
      | Some t => Returns ((t, false), st)
      | None =>
          let t := mkTranslation s l in
          Returns ((t, true), insert_translation t st)
      end.

(** Modelled from the spec: [Translation.save_target] is defined in
    wagtail_localize/models.py. It is the one-time initialisation of a new
    translation for the submitting user; the call is recorded in the trace. *)
Definition save_target (t : Translation) (u : User) : M unit :=
  fun st =>
    if storage_fails w (OpSaveTarget t)
    then Raises (DatabaseError (OpSaveTarget t))
    else Returns (tt, mkState (seen_objects st) (db st)
                              (trace st ++ [SaveTarget t u])).

(** [related_object_segment.object.get_instance(locale)] *)
Definition resolve_instance (k : TranslationKey) (l : Locale) : M Instance :=
  match get_instance w k l with
  | Some i => ret i
  | None => raise (DoesNotExist k l)
  end.

(** ** TranslationCreator *)

Section Creator.

(** [self.user] and [self.target_locales], fixed by [__init__]. *)
Variable user : User.
Variable target_locales : list Locale.

(** [__init__]: a creator starts with nothing seen. *)
Definition TranslationCreator_init (d : Database) : State :=
  mkState ∅ d [].

Fixpoint create_translations (fuel : nat) (instance : Instance)
    (include_related_objects : bool) : M unit :=
  match fuel with
  | 0 => out_of_fuel
  | S fuel' =>
      let instance :=
        if is_page instance then specific w instance else instance in
      do seen <- get_seen;
      if decide (translation_key instance ∈ seen) then ret tt
      else
        do _ <- add_seen (translation_key instance);
        do r <- get_or_create_from_instance instance;
        let '(source, created) := r in
        do _ <-
          (if include_related_objects then
             for_each
               (fun related_object_segment =>
                  do related_instance <-
                    resolve_instance related_object_segment (locale instance);
                  create_translations fuel' related_instance false)
               (relatedobjectsegment_set w source)
           else ret tt);
        for_each
          (fun target_locale =>
             do r <- Translation_get_or_create source target_locale;
             let '(translation, created) := r in
             if (created : bool) then save_target translation user
             else ret tt)
          target_locales
  end.

(** [_walk] of [post]: the children in listing order, each submitted before
    the pages below it. *)
Fixpoint _walk (fuel : nat) (current_page : TreeNode) : M unit :=
  for_each
    (fun child_page =>
       do _ <- create_translations fuel (node_instance child_page) true;
       if bool_decide (numchild (node_instance child_page) ≠ 0)
       then _walk fuel child_page
       else ret tt)
    (get_children current_page).

End Creator.

(** ** SubmitTranslationForm *)

(** The POST data the form reads. *)
Record PostData := mkPostData {
  post_locales : list Locale;
  post_include_subtree : bool;
}.

(** [self.fields["locales"].queryset]:
    [Locale.objects.exclude(id=instance.locale_id)] *)
Definition locales_queryset (instance : Instance) : list Locale :=
  filter (fun l => l ≠ locale instance) (Locale_objects w).

(** [form.is_valid()]: the [locales] field is required and every submitted
    choice has to be in the field's queryset. *)
Definition is_valid (instance : Instance) (data : PostData) : bool :=
  bool_decide (post_locales data ≠ [])
  && forallb (fun l => bool_decide (l ∈ locales_queryset instance))
             (post_locales data).

(** [form.cleaned_data["locales"]]: the rows of the queryset that were
    chosen. *)
Definition cleaned_locales (instance : Instance) (data : PostData)
  : list Locale :=
  filter (fun l => l ∈ post_locales data) (locales_queryset instance).

(** ** SubmitTranslationView.post *)

Inductive Response :=
| Redirect          (* redirect(success_url) after messages.success *)
| RenderForm.       (* render_to_response(context) *)

(** [with transaction.atomic():] the writes of the block are kept when it
    is left normally and undone when an exception leaves it. *)
Definition atomic {A} (block : M A) (st : State) : Outcome A * Database :=
  match block st with
  | Returns (a, st') => (Returns a, db st')
  | Raises e => (Raises e, db st)
  | OutOfFuel => (OutOfFuel, db st)
  end.

(** The block under [transaction.atomic()], run by a new
    [TranslationCreator(request.user, form.cleaned_data["locales"])]. The
    success message and the redirect that end it write to neither table. *)
Definition post_block (fuel : nat) (request_user : User) (object : TreeNode)
    (data : PostData) : M Response :=
  let locales := cleaned_locales (node_instance object) data in
  do _ <-
    create_translations request_user locales fuel (node_instance object) true;
  do _ <-
    (if is_page (node_instance object) then
       if post_include_subtree data then _walk request_user locales fuel object
       else ret tt
     else ret tt);
  ret Redirect.

Definition post (fuel : nat) (request_user : User) (object : TreeNode)
    (data : PostData) (d : Database) : Outcome Response * Database :=
  if is_valid (node_instance object) data then
    atomic (post_block fuel request_user object data)
           (TranslationCreator_init d)
  else (Returns RenderForm, d).

End Run.

(** ** Notions used to state what a run does *)

(** Partial correctness: what holds of the state a computation returns. *)
Definition hoare {A} (P : State -> Prop) (m : M A) (Q : A -> State -> Prop)
  : Prop :=
  forall st a st', P st -> m st = Returns (a, st') -> Q a st'.

Definition preserves {A} (P : State -> Prop) (m : M A) : Prop :=
  hoare P m (fun _ => P).

(** A computation that cannot run out of fuel. *)
Definition fuelled {A} (m : M A) : Prop := forall st, m st <> OutOfFuel.

(** A computation that returns from every state. *)
Definition returns {A} (m : M A) : Prop :=
  forall st, exists a st', m st = Returns (a, st').

(** The source [get_or_create_from_instance] hands back for an instance. *)
Definition source_for (instance : Instance) (d : Database)
  : TranslationSource :=
  match find_source (translation_key instance) d with
  | Some s => s
  | None => mkSource (translation_key instance) (locale instance)
  end.

(** How many sources the table holds for an object. *)
Definition count_sources (k : TranslationKey) (d : Database) : nat :=
  length (filter (fun s => object_id s = k) (sources d)).

(** How many translations of a source into a locale the table holds. *)
Definition count_translations (t : Translation) (d : Database) : nat :=
  length (filter (fun t' => t' = t) (translations d)).

(** The rows a stretch of the trace added, and the targets it saved. *)
Definition created_source (e : Event) : option TranslationSource :=
  match e with SourceCreated s => Some s | _ => None end.
Definition created_translation (e : Event) : option Translation :=
  match e with TranslationCreated t => Some t | _ => None end.
Definition saved_target (e : Event) : option (Translation * User) :=
  match e with SaveTarget t u => Some (t, u) | _ => None end.

(** The source an event is about, and whether it is about a translation. *)
Definition event_source (e : Event) : TranslationSource :=
  match e with
  | SourceCreated s => s
  | TranslationCreated t => source t
  | SaveTarget t _ => source t
  end.
Definition is_task_event (e : Event) : bool :=
  match e with SourceCreated _ => false | _ => true end.

(** Since the trace was [T], only events that satisfy [Q] were added. *)
Definition emitted (T : list Event) (Q : Event -> Prop) (st : State) : Prop :=
  exists evs, trace st = T ++ evs /\ Forall Q evs.

(** The tables of [d] are the first rows of the tables of [D]. *)
Definition db_prefix (d D : Database) : Prop :=
  sources d `prefix_of` sources D /\
  translations d `prefix_of` translations D.

(** A second run, in state [st2], has come as far as the first had in [st]:
    it has seen the same objects, over the database [D] and with the trace
    [T] it started with. *)
Definition replays (D : Database) (T : list Event) (st st2 : State) : Prop :=
  seen_objects st2 = seen_objects st /\ db st2 = D /\ trace st2 = T.

Section Notions.

Variable w : World.
Variable user : User.
Variable target_locales : list Locale.

(** [instance] after [if isinstance(instance, Page): instance = instance.specific]. *)
Definition concrete (instance : Instance) : Instance :=
  if is_page instance then specific w instance else instance.

(** The body of the loop over [self.target_locales]. *)
Definition submit_locale (source : TranslationSource) (target_locale : Locale)
  : M unit :=
  do r <- Translation_get_or_create w source target_locale;
  let '(translation, created) := r in
  if (created : bool) then save_target w translation user else ret tt.

(** The body of the loop over the related object segments. *)
Definition submit_related (fuel : nat) (instance : Instance)
    (related_object_segment : TranslationKey) : M unit :=
  do related_instance <-
    resolve_instance w related_object_segment (locale instance);
  create_translations w user target_locales fuel related_instance false.

(** The two statements between the seen-set test and the loops. *)
Definition enter (instance : Instance) : M (TranslationSource * bool) :=
  do _ <- add_seen (translation_key instance);
  get_or_create_from_instance w instance.

(** Every object that was seen has its source. *)
Definition seen_have_sources (st : State) : Prop :=
  forall k, k ∈ seen_objects st -> is_Some (find_source k (db st)).

(** From a state with trace [T0] and database [d0], the events [evs] account
    for every row added since, nothing was added twice or over an existing
    row, and each new translation had its target saved, once, for
    [self.user]. *)
Definition ledger (T0 : list Event) (d0 : Database) (evs : list Event)
    (st : State) : Prop :=
  trace st = T0 ++ evs /\
  sources (db st) = sources d0 ++ omap created_source evs /\
  translations (db st) = translations d0 ++ omap created_translation evs /\
  omap saved_target evs
    = (fun t => (t, user)) <$> omap created_translation evs /\
  NoDup (object_id <$> omap created_source evs) /\
  (forall s, s ∈ omap created_source evs ->
             object_id s ∉ object_id <$> sources d0) /\
  NoDup (omap created_translation evs) /\
  (forall t, t ∈ omap created_translation evs -> t ∉ translations d0).

Definition accounted (T0 : list Event) (d0 : Database) (st : State) : Prop :=
  exists evs, ledger T0 d0 evs st.

Definition no_storage_failure : Prop :=
  forall op, storage_fails w op = false.

(** The object [k] has its source and the translations of it into every
    target locale. *)
Definition settled (k : TranslationKey) (d : Database) : Prop :=
  exists s, find_source k d = Some s /\
            forall l, l ∈ target_locales ->
                      mkTranslation s l ∈ translations d.

(** Every object seen, but for those in [X], is settled. *)
Definition settled_except (X : gset TranslationKey) (st : State) : Prop :=
  forall k, k ∈ seen_objects st -> k ∉ X -> settled k (db st).

End Notions.

(** The key and the locale [create_translations] works with, and the source
    it creates for an instance that has none. *)
Definition key_of (w : World) (instance : Instance) : TranslationKey :=
  translation_key (concrete w instance).
Definition locale_of (w : World) (instance : Instance) : Locale :=
  locale (concrete w instance).
Definition new_source (w : World) (instance : Instance) : TranslationSource :=
  mkSource (key_of w instance) (locale_of w instance).

(** [instance] has [related] among the related objects of its source [s]. *)
Definition has_related (w : World) (instance : Instance)
    (s : TranslationSource) (related : Instance) : Prop :=
  exists r, r ∈ relatedobjectsegment_set w s /\
            get_instance w r (locale_of w instance) = Some related.

(** Every related object of the source [s] of [instance] can be fetched. *)
Definition related_resolve (w : World) (instance : Instance)
    (s : TranslationSource) : Prop :=
  forall r, r ∈ relatedobjectsegment_set w s ->
            is_Some (get_instance w r (locale_of w instance)).

(** ** A small site for examples *)

Definition empty_db : Database := mkDatabase [] [].

(** A small site used in the examples: snippets and pages in locale 0. *)
Definition snippet (k : TranslationKey) : Instance := mkInstance k 0 false 0.
Definition page (k : TranslationKey) : Instance := mkInstance k 0 true 0.
Definition parent_page (k : TranslationKey) (n : nat) : Instance :=
  mkInstance k 0 true n.

Definition site (related : TranslationKey -> list TranslationKey)
    (fails : StorageOp -> bool) : World :=
  mkWorld (fun i => i)
          (fun s => related (object_id s))
          (fun k l => if bool_decide (l = 0) then Some (snippet k) else None)
          [0; 1; 2; 3; 4; 5]
          fails.

Definition no_failure : StorageOp -> bool := fun _ => false.

(** The storage layer refuses the translation of object 1 into locale 5. *)
Definition refuse_fifth : StorageOp -> bool :=
  fun op =>
    match op with
    | OpTranslation s 5 => bool_decide (object_id s = 1)
    | _ => false
    end.

(** A has B as a related object, B has A. *)
Definition cycle_AB : TranslationKey -> list TranslationKey :=
  fun k => match k with 1 => [2] | 2 => [1] | _ => [] end.

(** A has B as a related object, B has C. *)
Definition chain_ABC : TranslationKey -> list TranslationKey :=
  fun k => match k with 1 => [2] | 2 => [3] | _ => [] end.

(** The state a run returned. *)
Definition final_state (o : Outcome (unit * State)) : State :=
  match o with
  | Returns (_, st) => st
  | _ => mkState ∅ (mkDatabase [] []) []
  end.

(** A database in which object 1 already has its source and a translation
    of it into locale 1. *)
Definition db_with_translation : Database :=
  mkDatabase [mkSource 1 0] [mkTranslation (mkSource 1 0) 1].

(** Submitting object 1 over that database, into locales 1 and 2, and into
    locales 1, 2 and 3. *)
Definition resubmitted : State :=
  final_state
    (create_translations (site cycle_AB no_failure) 7 [1; 2] 2 (snippet 1)
       true (TranslationCreator_init db_with_translation)).
Definition fanned_out : State :=
  final_state
    (create_translations (site cycle_AB no_failure) 7 [1; 2; 3] 2 (snippet 1)
       true (TranslationCreator_init db_with_translation)).

(** Page 1 with page 2 below it. *)
Definition two_pages : TreeNode :=
  Node (parent_page 1 1) [Node (page 2) []].

(** Two submissions by one creator, one after the other. *)
Definition submit_both (w : World) (first second : Instance) : M unit :=
  do _ <- create_translations w 7 [1] 2 first true;
  create_translations w 7 [1] 2 second true.

(** ** The rest of the view *)

(** [page.get_descendants()]: the pages below a page, each before the pages
    below it, siblings in listing order. *)
Fixpoint get_descendants (n : TreeNode) : list TreeNode :=
  match n with
  | Node _ cs => flat_map (fun c => c :: get_descendants c) cs
  end.

(** The pages [_walk] reaches: the children of a page, and below a child
    only when its [numchild] is not zero. *)
Fixpoint walked_pages (n : TreeNode) : list TreeNode :=
  match n with
  | Node _ cs =>
      flat_map
        (fun c => c :: (if bool_decide (numchild (node_instance c) ≠ 0)
                        then walked_pages c else []))
        cs
  end.


(** The [include_subtree] field as [SubmitTranslationForm.__init__] leaves
    it: a checkbox whose help text gives the number of pages it adds, or a
    hidden input. *)
Inductive SubtreeField :=
| SubtreeCheckbox (additional_pages : nat)
| SubtreeHidden.

Definition page_descendant_count (instance : TreeNode) : nat :=
  if is_page (node_instance instance) then length (get_descendants instance)
  else 0.

Definition include_subtree_field (instance : TreeNode) : SubtreeField :=
  if bool_decide (0 < page_descendant_count instance)
  then SubtreeCheckbox (page_descendant_count instance)
  else SubtreeHidden.

(** The [locales] text of the success message of [post]: the display name
    of the one locale, or the number of locales ("always plural"). [None]
    stands for the [IndexError] of [locales[0]]. *)
Inductive LocalesText :=
| LocaleDisplayName (l : Locale)
| LocalesCount (n : nat).

Definition success_locales (locales : list Locale) : option LocalesText :=
  if bool_decide (length locales = 1) then
    match locales !! 0 with
    | Some l => Some (LocaleDisplayName l)
    | None => None
    end
  else Some (LocalesCount (length locales)).

(** [dispatch]: the permission check, then the object, then the handler of
    the request's method. [get_object] is what [self.get_object()] gives,
    [None] when it raises [Http404]. *)
Inductive Method :=
| GET
| POST
| OtherMethod.      (* answered by Django's View, without the tables *)

Inductive HttpResult :=
| PermissionDenied
| Http404
| Handled (o : Outcome Response)
| DjangoDefault.

Definition dispatch (w : World) (fuel : nat) (has_perms : bool)
    (get_object : option TreeNode) (method : Method) (request_user : User)
    (data : PostData) (d : Database) : HttpResult * Database :=
  if negb has_perms then (PermissionDenied, d)
  else
    match get_object with
    | None => (Http404, d)
    | Some object =>
        match method with
        | POST =>
            let r := post w fuel request_user object data d in
            (Handled r.1, r.2)
        | GET => (Handled (Returns RenderForm), d)
        | OtherMethod => (DjangoDefault, d)
        end
    end.

(** [SubmitSnippetTranslationView.get_object]: [model] is what
    [get_snippet_model_from_url_params] finds ([None] for its [Http404]),
    with whether it is a [TranslatableMixin] and its objects by [pk]. *)
Record SnippetModel := mkSnippetModel {
  is_translatable : bool;
  snippet_objects : nat -> option TreeNode;
}.

Definition SubmitSnippetTranslationView_get_object
    (model : option SnippetModel) (pk : nat) : option TreeNode :=
  match model with
  | None => None
  | Some m => if negb (is_translatable m) then None else snippet_objects m pk
  end.

(** The calls [_walk] makes, as one loop. *)
Definition submit_descendants (w : World) (user : User)
    (target_locales : list Locale) (fuel : nat) (current_page : TreeNode)
  : M unit :=
  for_each
    (fun page => create_translations w user target_locales fuel
                   (node_instance page) true)
    (walked_pages current_page).

(** Every translation is of a source in the table. *)
Definition sources_present (d : Database) : Prop :=
  forall t, t ∈ translations d -> source t ∈ sources d.

(** The same site over a storage layer that never fails. *)
Definition without_failures (w : World) : World :=
  mkWorld (specific w) (relatedobjectsegment_set w) (get_instance w)
          (Locale_objects w) (fun _ => false).

(** Whatever the first computation returns, the second returns too. *)
Definition follows {A} (m m0 : M A) : Prop :=
  forall st x, m st = Returns x -> m0 st = Returns x.

(** The storage layer let the submission of object [k] through: it gave the
    source and, for every target locale, the translation of that source,
    which is in the table. *)
Definition served (w : World) (target_locales : list Locale)
    (k : TranslationKey) (d : Database) : Prop :=
  storage_fails w (OpSource k) = false /\
  exists s, find_source k d = Some s /\
    forall l, l ∈ target_locales ->
      storage_fails w (OpTranslation s l) = false /\
      mkTranslation s l ∈ translations d.

Definition served_except (w : World) (target_locales : list Locale)
    (X : gset TranslationKey) (st : State) : Prop :=
  forall k, k ∈ seen_objects st -> k ∉ X -> served w target_locales k (db st).

(** A target saved was one the storage layer accepts. *)
Definition save_allowed (w : World) (e : Event) : Prop :=
  match e with
  | SaveTarget t _ => storage_fails w (OpSaveTarget t) = false
  | _ => True
  end.

(** The storage layer refuses something the submission of object [k] into
    the target locales needs: the source of [k]; or, for one of the locales
    and whichever row is the source of [k], the translation into it, or the
    saving of the target of that translation when it is not yet in [d]. *)
Definition refused (w : World) (target_locales : list Locale) (d : Database)
    (k : TranslationKey) : Prop :=
  storage_fails w (OpSource k) = true \/
  exists l, l ∈ target_locales /\
    forall s, object_id s = k ->
      storage_fails w (OpTranslation s l) = true \/
      ((mkTranslation s l ∉ translations d) /\
       storage_fails w (OpSaveTarget (mkTranslation s l)) = true).

(** The objects a request is sure to submit: the object, the related
    objects of its source and, when the subtree of a page is asked for, the
    pages the walk reaches. *)
Definition submits (w : World) (object : TreeNode) (data : PostData)
    (d : Database) (k : TranslationKey) : Prop :=
  k = key_of w (node_instance object) \/
  (exists X,
     has_related w (node_instance object)
       (source_for (concrete w (node_instance object)) d) X /\
     k = key_of w X) \/
  (is_page (node_instance object) = true /\
   post_include_subtree data = true /\
   exists page, page ∈ walked_pages object /\
                k = key_of w (node_instance page)).

(** The storage layer refuses the source of object 6; the one that refuses
    to save the target of the translation of object 2 into locale 1. *)
Definition refuse_source_6 : StorageOp -> bool :=
  fun op => match op with OpSource 6 => true | _ => false end.

Definition refuse_save_2 : StorageOp -> bool :=
  fun op =>
    match op with
    | OpSaveTarget t =>
        bool_decide (object_id (source t) = 2 /\ target_locale t = 1)
    | _ => false
    end.

(** Page 1 with pages 2 and 5 below it and page 6 below page 2; and a site
    where object 1 has objects 2, 9, 3 and 8 as related objects, of which
    objects 9 and 8 cannot be fetched. *)
Definition small_tree : TreeNode :=
  Node (parent_page 1 2)
       [Node (parent_page 2 1) [Node (page 6) []]; Node (page 5) []].

(** The same tree with a stale counter: page 2 is stored as childless. *)
Definition stale_tree : TreeNode :=
  Node (parent_page 1 2) [Node (page 2) [Node (page 6) []]; Node (page 5) []].

Definition missing_9 : World :=
  mkWorld (fun i => i)
          (fun s => match object_id s with 1 => [2; 9; 3; 8] | _ => [] end)
          (fun k l => if bool_decide (l = 0 /\ k <> 9 /\ k <> 8)
                      then Some (snippet k) else None)
          [0; 1; 2; 3]
          no_failure.

(** Induction on a page tree, with the hypothesis for every child. *)
Lemma TreeNode_forall_ind (P : TreeNode -> Prop) :
  (forall i cs, Forall P cs -> P (Node i cs)) -> forall n, P n.
Proof.
  intros step. fix IH 1. intros [i cs]. apply step.
  induction cs as [|c cs IHcs]; constructor; [apply IH | exact IHcs].
Qed.

(** ** Reasoning about runs *)

Lemma bind_Returns {A B} (m : M A) (k : A -> M B) st b st' :
  bind m k st = Returns (b, st') ->
  exists a st1, m st = Returns (a, st1) /\ k a st1 = Returns (b, st').
Proof.
  unfold bind. destruct (m st) as [[a st1]| |]; try discriminate.
  intros H. exists a, st1. split; [reflexivity | exact H].
Qed.

Lemma bind_step {A B} (m : M A) (k : A -> M B) st a st1 :
  m st = Returns (a, st1) -> bind m k st = k a st1.
Proof. unfold bind. intros ->. reflexivity. Qed.

Lemma bind_Raises {A B} (m : M A) (k : A -> M B) st e :
  m st = Raises e -> bind m k st = Raises e.
Proof. unfold bind. intros ->. reflexivity. Qed.

Lemma hoare_ret {A} (P : State -> Prop) (a : A) : preserves P (ret a).
Proof. intros st a' st' HP [= <- <-]. exact HP. Qed.

Lemma hoare_bind {A B} P Q R (m : M A) (k : A -> M B) :
  hoare P m Q -> (forall a, hoare (Q a) (k a) R) -> hoare P (bind m k) R.
Proof.
  intros Hm Hk st b st' HP Hrun.
  apply bind_Returns in Hrun as (a & st1 & H1 & H2).
  eapply Hk; [| exact H2]. eapply Hm; eauto.
Qed.

Lemma preserves_bind {A B} P (m : M A) (k : A -> M B) :
  preserves P m -> (forall a, preserves P (k a)) -> preserves P (bind m k).
Proof. intros Hm Hk. eapply hoare_bind; [exact Hm | exact Hk]. Qed.

Lemma preserves_for_each {X} P (body : X -> M unit) xs :
  (forall x, x ∈ xs -> preserves P (body x)) ->
  preserves P (for_each body xs).
Proof.
  induction xs as [|x xs IH]; intros Hbody.
  - apply hoare_ret.
  - simpl. apply preserves_bind.
    + apply Hbody. left.
    + intros _. apply IH. intros y Hy. apply Hbody. by right.
Qed.

Lemma fuelled_bind {A B} (m : M A) (k : A -> M B) :
  fuelled m -> (forall a, fuelled (k a)) -> fuelled (bind m k).
Proof.
  intros Hm Hk st. unfold bind. specialize (Hm st).
  destruct (m st) as [[a st1]| |]; [apply Hk | discriminate | congruence].
Qed.

Lemma fuelled_for_each {X} (body : X -> M unit) xs :
  (forall x, fuelled (body x)) -> fuelled (for_each body xs).
Proof.
  intros Hbody. induction xs as [|x xs IH]; simpl.
  - intros st. discriminate.
  - apply fuelled_bind; [apply Hbody | intros _; exact IH].
Qed.

Lemma returns_bind {A B} (m : M A) (k : A -> M B) :
  returns m -> (forall a, returns (k a)) -> returns (bind m k).
Proof.
  intros Hm Hk st. destruct (Hm st) as (a & st1 & H1).
  rewrite (bind_step _ _ _ _ _ H1). apply Hk.
Qed.

Lemma returns_for_each {X} (body : X -> M unit) xs :
  (forall x, x ∈ xs -> returns (body x)) -> returns (for_each body xs).
Proof.
  induction xs as [|x xs IH]; intros Hbody; simpl.
  - intros st. by exists tt, st.
  - apply returns_bind; [apply Hbody; left |].
    intros _. apply IH. intros y Hy. apply Hbody. by right.
Qed.

(** ** The tables *)

Lemma find_source_Some k d s :
  find_source k d = Some s -> s ∈ sources d /\ object_id s = k.
Proof.
  unfold find_source. intros H. apply find_some in H as [Hin Hk].
  split; [by apply list_elem_of_In | by apply bool_decide_eq_true in Hk].
Qed.

Lemma find_source_None k d :
  find_source k d = None <-> k ∉ object_id <$> sources d.
Proof.
  unfold find_source. split.
  - intros H Hin. apply list_elem_of_fmap in Hin as (s & -> & Hs).
    apply list_elem_of_In in Hs.
    pose proof (find_none _ _ H s Hs) as Hf. simpl in Hf.
    by apply bool_decide_eq_false in Hf.
  - intros H. destruct (find _ _) as [s|] eqn:E; [|done].
    apply find_some in E as [Hin Hk]. apply bool_decide_eq_true in Hk.
    exfalso. apply H. apply list_elem_of_fmap. exists s.
    split; [done | by apply list_elem_of_In].
Qed.

Lemma find_translation_Some s l d t :
  find_translation s l d = Some t ->
  t = mkTranslation s l /\ t ∈ translations d.
Proof.
  unfold find_translation. intros H. apply find_some in H as [Hin Ht].
  split; [by apply bool_decide_eq_true in Ht | by apply list_elem_of_In].
Qed.

Lemma find_translation_None s l d :
  find_translation s l d = None <-> mkTranslation s l ∉ translations d.
Proof.
  unfold find_translation. split.
  - intros H Hin. apply list_elem_of_In in Hin.
    pose proof (find_none _ _ H _ Hin) as Hf. simpl in Hf.
    by apply bool_decide_eq_false in Hf.
  - intros H. destruct (find _ _) as [t|] eqn:E; [|done].
    apply find_some in E as [Hin Ht]. apply bool_decide_eq_true in Ht.
    subst t. exfalso. apply H. by apply list_elem_of_In.
Qed.

Lemma find_app_Some {A} (f : A -> bool) l k x :
  find f l = Some x -> find f (l ++ k) = Some x.
Proof.
  induction l as [|a l IH]; simpl; [discriminate|].
  destruct (f a); [done | exact IH].
Qed.

Lemma find_app_None {A} (f : A -> bool) l k :
  find f l = None -> find f (l ++ k) = find f k.
Proof.
  induction l as [|a l IH]; simpl; [done|].
  destruct (f a); [discriminate | exact IH].
Qed.

Lemma filter_key_absent {A B} `{EqDecision B} (f : A -> B) k (l : list A) :
  k ∉ f <$> l -> filter (fun x => f x = k) l = [].
Proof.
  induction l as [|a l IH]; [done|]. rewrite fmap_cons, not_elem_of_cons.
  intros [Hne Hl]. rewrite filter_cons_False by congruence. by apply IH.
Qed.

Lemma filter_key_NoDup {A B} `{EqDecision B} (f : A -> B) k (l : list A) :
  NoDup (f <$> l) -> length (filter (fun x => f x = k) l) <= 1.
Proof.
  induction l as [|a l IH]; [simpl; lia|]. rewrite fmap_cons, NoDup_cons.
  intros [Hnin Hnd]. destruct (decide (f a = k)) as [E|E].
  - rewrite filter_cons_True by done. rewrite E in Hnin.
    rewrite (filter_key_absent f k l Hnin). simpl. lia.
  - rewrite filter_cons_False by done. by apply IH.
Qed.

Lemma filter_key_present {A B} `{EqDecision B} (f : A -> B) k (l : list A) :
  k ∈ f <$> l -> 1 <= length (filter (fun x => f x = k) l).
Proof.
  intros Hin. apply list_elem_of_fmap in Hin as (a & -> & Ha).
  assert (a ∈ filter (fun x => f x = f a) l) as Hf
    by (by apply list_elem_of_filter).
  destruct (filter _ l); [inversion Hf | simpl; lia].
Qed.

Lemma count_sources_found k d :
  is_Some (find_source k d) -> 1 <= count_sources k d.
Proof.
  intros [s Hs]. apply find_source_Some in Hs as [Hin Hk].
  apply filter_key_present, list_elem_of_fmap. by exists s.
Qed.

Section RunFacts.

Variable w : World.
Variable user : User.
Variable target_locales : list Locale.

#[local] Abbreviation create_translations :=
  (create_translations w user target_locales).
#[local] Abbreviation _walk := (_walk w user target_locales).
#[local] Abbreviation concrete := (concrete w).
#[local] Abbreviation submit_locale := (submit_locale w user).
#[local] Abbreviation submit_related := (submit_related w user target_locales).
#[local] Abbreviation enter := (enter w).
#[local] Abbreviation ledger := (ledger user).
#[local] Abbreviation accounted := (accounted user).
#[local] Abbreviation no_storage_failure := (no_storage_failure w).
#[local] Abbreviation settled := (settled target_locales).
#[local] Abbreviation settled_except := (settled_except target_locales).

Lemma create_translations_unfold fuel instance include_related_objects :
  create_translations (S fuel) instance include_related_objects =
  (do seen <- get_seen;
   if decide (translation_key (concrete instance) ∈ seen) then ret tt
   else
     do _ <- add_seen (translation_key (concrete instance));
     do r <- get_or_create_from_instance w (concrete instance);
     let '(source, created) := r in
     do _ <-
       (if include_related_objects then
          for_each (submit_related fuel (concrete instance))
                   (relatedobjectsegment_set w source)
        else ret tt);
     for_each (submit_locale source) target_locales).
Proof. reflexivity. Qed.

Lemma create_translations_seen fuel instance include_related_objects st :
  translation_key (concrete instance) ∈ seen_objects st ->
  create_translations (S fuel) instance include_related_objects st
  = Returns (tt, st).
Proof.
  intros Hin. rewrite create_translations_unfold. unfold bind, get_seen.
  destruct (decide _) as [|Hn]; [reflexivity | by destruct Hn].
Qed.

Lemma create_translations_fresh fuel instance include_related_objects st :
  translation_key (concrete instance) ∉ seen_objects st ->
  create_translations (S fuel) instance include_related_objects st
  = (do r <- enter (concrete instance);
     do _ <-
       (if include_related_objects then
          for_each (submit_related fuel (concrete instance))
                   (relatedobjectsegment_set w r.1)
        else ret tt);
     for_each (submit_locale r.1) target_locales) st.
Proof.
  intros Hn. rewrite create_translations_unfold. unfold bind at 1, get_seen.
  destruct (decide _) as [Hin|_]; [by destruct Hn |].
  unfold enter, bind, add_seen.
  destruct (get_or_create_from_instance _ _ _) as [[[s c] st1]| |];
    reflexivity.
Qed.

(** How a call that returns went. *)
Lemma create_translations_Returns fuel instance include_related_objects st st' :
  create_translations (S fuel) instance include_related_objects st
  = Returns (tt, st') ->
  (translation_key (concrete instance) ∈ seen_objects st /\ st' = st) \/
  ((translation_key (concrete instance) ∉ seen_objects st) /\
   exists s c st1 st2,
     enter (concrete instance) st = Returns ((s, c), st1) /\
     (if include_related_objects then
        for_each (submit_related fuel (concrete instance))
                 (relatedobjectsegment_set w s)
      else ret tt) st1 = Returns (tt, st2) /\
     for_each (submit_locale s) target_locales st2 = Returns (tt, st')).
Proof.
  intros Hrun.
  destruct (decide (translation_key (concrete instance) ∈ seen_objects st))
    as [Hin|Hn].
  - left. split; [done|].
    rewrite create_translations_seen in Hrun by done. congruence.
  - right. split; [done|].
    rewrite create_translations_fresh in Hrun by done.
    apply bind_Returns in Hrun as ([s c] & st1 & He & Hrun).
    apply bind_Returns in Hrun as ([] & st2 & Hrel & Hloc).
    by exists s, c, st1, st2.
Qed.

Lemma enter_Returns instance st s c st1 :
  enter instance st = Returns ((s, c), st1) ->
  storage_fails w (OpSource (translation_key instance)) = false /\
  object_id s = translation_key instance /\
  find_source (translation_key instance) (db st1) = Some s /\
  seen_objects st1 = {[translation_key instance]} ∪ seen_objects st /\
  translations (db st1) = translations (db st) /\
  ((c = false /\ find_source (translation_key instance) (db st) = Some s /\
    sources (db st1) = sources (db st) /\ trace st1 = trace st) \/
   (c = true /\ find_source (translation_key instance) (db st) = None /\
    s = mkSource (translation_key instance) (locale instance) /\
    sources (db st1) = sources (db st) ++ [s] /\
    trace st1 = trace st ++ [SourceCreated s])).
Proof.
  unfold enter, bind, add_seen, get_or_create_from_instance. simpl.
  destruct (storage_fails w _); [discriminate|].
  destruct (find_source _ (db st)) as [s0|] eqn:Hf.
  - intros [= <- <- <-]. simpl. pose proof (find_source_Some _ _ _ Hf) as [_ Hk].
    repeat split; try done. left. by repeat split.
  - intros [= <- <- <-]. simpl. repeat split; try done.
    + unfold find_source in *. simpl. rewrite find_app_None by done.
      simpl. by rewrite bool_decide_eq_true_2.
    + right. by repeat split.
Qed.

Lemma submit_locale_Returns s l st st' :
  submit_locale s l st = Returns (tt, st') ->
  storage_fails w (OpTranslation s l) = false /\
  seen_objects st' = seen_objects st /\
  sources (db st') = sources (db st) /\
  mkTranslation s l ∈ translations (db st') /\
  ((mkTranslation s l ∈ translations (db st) /\
    translations (db st') = translations (db st) /\ trace st' = trace st) \/
   ((mkTranslation s l ∉ translations (db st)) /\
    storage_fails w (OpSaveTarget (mkTranslation s l)) = false /\
    translations (db st') = translations (db st) ++ [mkTranslation s l] /\
    trace st' = trace st ++ [TranslationCreated (mkTranslation s l);
                             SaveTarget (mkTranslation s l) user])).
Proof.
  unfold submit_locale, bind, Translation_get_or_create, save_target. simpl.
  destruct (storage_fails w (OpTranslation s l)); [discriminate|].
  destruct (find_translation s l (db st)) as [t0|] eqn:Hf.
  - intros [= <-]. apply find_translation_Some in Hf as [-> Hin].
    repeat split; try done. left. by repeat split.
  - simpl. destruct (storage_fails w (OpSaveTarget _)); [discriminate|].
    intros [= <-]. simpl. apply find_translation_None in Hf.
    repeat split; try done.
    + apply elem_of_app. right. by apply list_elem_of_singleton.
    + right. repeat split; try done. by rewrite <- app_assoc.
Qed.

Lemma resolve_instance_Returns k l st i st' :
  resolve_instance w k l st = Returns (i, st') ->
  get_instance w k l = Some i /\ st' = st.
Proof.
  unfold resolve_instance. destruct (get_instance w k l); [|discriminate].
  by intros [= <- <-].
Qed.

Lemma submit_related_Returns fuel instance r st st' :
  submit_related fuel instance r st = Returns (tt, st') ->
  exists related_instance,
    get_instance w r (locale instance) = Some related_instance /\
    create_translations fuel related_instance false st = Returns (tt, st').
Proof.
  unfold submit_related. intros H.
  apply bind_Returns in H as (i & st1 & Hr & Hc).
  apply resolve_instance_Returns in Hr as [Hr ->]. by exists i.
Qed.

Lemma submit_related_step fuel instance r related_instance st :
  get_instance w r (locale instance) = Some related_instance ->
  submit_related fuel instance r st
  = create_translations fuel related_instance false st.
Proof.
  intros H. unfold submit_related, bind, resolve_instance. by rewrite H.
Qed.

(** An invariant of the two building blocks is an invariant of every call. *)
Lemma create_translations_preserves (P : State -> Prop) :
  (forall instance, preserves P (enter instance)) ->
  (forall s l, l ∈ target_locales -> preserves P (submit_locale s l)) ->
  forall fuel instance include_related_objects,
    preserves P (create_translations fuel instance include_related_objects).
Proof.
  intros He Hl. induction fuel as [|fuel IH]; intros i b st [] st' HP Hrun.
  - discriminate.
  - apply create_translations_Returns in Hrun
      as [[_ ->]|(_ & s & c & st1 & st2 & H1 & H2 & H3)]; [done|].
    assert (P st1) as HP1 by (eapply He; eauto).
    assert (P st2) as HP2.
    { destruct b; [|by injection H2 as <-].
      eapply preserves_for_each; [| exact HP1 | exact H2].
      intros r _ sta [] stb HPa Hr.
      apply submit_related_Returns in Hr as (ri & _ & Hr).
      eapply IH; eauto. }
    eapply preserves_for_each; [| exact HP2 | exact H3].
    intros l Hin. by apply Hl.
Qed.

Lemma _walk_unfold fuel current_page :
  _walk fuel current_page =
  for_each
    (fun child_page =>
       do _ <- create_translations fuel (node_instance child_page) true;
       if bool_decide (numchild (node_instance child_page) ≠ 0)
       then _walk fuel child_page
       else ret tt)
    (get_children current_page).
Proof. destruct current_page. reflexivity. Qed.

Lemma _walk_preserves (P : State -> Prop) fuel :
  (forall instance, preserves P (create_translations fuel instance true)) ->
  forall current_page, preserves P (_walk fuel current_page).
Proof.
  intros Hc. induction current_page as [i cs IH] using TreeNode_forall_ind.
  rewrite _walk_unfold. simpl. apply preserves_for_each.
  intros child Hchild. apply preserves_bind; [apply Hc | intros _].
  destruct (bool_decide _); [| apply hoare_ret].
  rewrite Forall_forall in IH. by apply IH.
Qed.

(** *** Fuel *)

Lemma get_or_create_from_instance_fuelled instance :
  fuelled (get_or_create_from_instance w instance).
Proof.
  intros st. unfold get_or_create_from_instance.
  destruct (storage_fails w _); [discriminate|].
  destruct (find_source _ _); discriminate.
Qed.

Lemma submit_locale_fuelled s l : fuelled (submit_locale s l).
Proof.
  intros st. unfold submit_locale, bind, Translation_get_or_create, save_target.
  destruct (storage_fails w (OpTranslation s l)); [discriminate|].
  destruct (find_translation _ _ _); [discriminate|].
  destruct (storage_fails w _); discriminate.
Qed.

Lemma enter_fuelled instance : fuelled (enter instance).
Proof.
  apply fuelled_bind; [intros st; discriminate | intros _].
  apply get_or_create_from_instance_fuelled.
Qed.

Lemma create_translations_fuelled_shallow fuel instance :
  fuelled (create_translations (S fuel) instance false).
Proof.
  intros st.
  destruct (decide (translation_key (concrete instance) ∈ seen_objects st)).
  - by rewrite create_translations_seen.
  - rewrite create_translations_fresh by done. revert st n.
    intros st _. revert st. apply fuelled_bind; [apply enter_fuelled|].
    intros r. apply fuelled_bind; [intros st; discriminate | intros _].
    apply fuelled_for_each, submit_locale_fuelled.
Qed.

Lemma submit_related_fuelled fuel instance r :
  fuelled (submit_related (S fuel) instance r).
Proof.
  apply fuelled_bind.
  - intros st. unfold resolve_instance.
    destruct (get_instance w r _); discriminate.
  - intros i. apply create_translations_fuelled_shallow.
Qed.

(** Two levels of calls are all there are: the nested call never expands
    related objects. *)
Lemma create_translations_fuelled fuel instance include_related_objects :
  fuelled (create_translations (S (S fuel)) instance include_related_objects).
Proof.
  intros st.
  destruct (decide (translation_key (concrete instance) ∈ seen_objects st)).
  - by rewrite create_translations_seen.
  - rewrite create_translations_fresh by done. revert st n.
    intros st _. revert st. apply fuelled_bind; [apply enter_fuelled|].
    intros r. apply fuelled_bind; [| intros _].
    + destruct include_related_objects; [| intros st; discriminate].
      apply fuelled_for_each. intros x. apply submit_related_fuelled.
    + apply fuelled_for_each, submit_locale_fuelled.
Qed.

Lemma create_translations_shallow_fuel fuel instance :
  create_translations (S fuel) instance false
  = create_translations 1 instance false.
Proof. reflexivity. Qed.

Lemma create_translations_fuel fuel instance include_related_objects :
  create_translations (S (S fuel)) instance include_related_objects
  = create_translations 2 instance include_related_objects.
Proof. reflexivity. Qed.

(** *** The seen set *)

Lemma create_translations_seen_mono (S0 : gset TranslationKey) fuel instance b :
  preserves (fun st => S0 ⊆ seen_objects st) (create_translations fuel instance b).
Proof.
  apply create_translations_preserves.
  - intros i st [s c] st1 HS H. apply enter_Returns in H as (_ & _ & _ & -> & _).
    by apply union_subseteq_r'.
  - intros s l _ st [] st1 HS H.
    apply submit_locale_Returns in H as (_ & -> & _). done.
Qed.

Lemma create_translations_marks fuel instance b st st' :
  create_translations (S fuel) instance b st = Returns (tt, st') ->
  translation_key (concrete instance) ∈ seen_objects st'.
Proof.
  intros Hrun.
  apply create_translations_Returns in Hrun
    as [[Hin ->]|(_ & s & c & st1 & st2 & H1 & H2 & H3)]; [done|].
  apply enter_Returns in H1 as (_ & _ & _ & Hseen & _).
  assert ({[translation_key (concrete instance)]} ⊆ seen_objects st1) as Hs1
    by (rewrite Hseen; apply union_subseteq_l).
  clear Hseen.
  assert ({[translation_key (concrete instance)]} ⊆ seen_objects st2) as Hs2.
  { destruct b; [| by injection H2 as <-].
    eapply (preserves_for_each (fun st => _ ⊆ seen_objects st));
      [| exact Hs1 | exact H2].
    intros r _ sta [] stb Ha Hr.
    apply submit_related_Returns in Hr as (ri & _ & Hr).
    eapply create_translations_seen_mono; eauto. }
  assert ({[translation_key (concrete instance)]} ⊆ seen_objects st') as Hs3.
  { eapply (preserves_for_each (fun st => _ ⊆ seen_objects st));
      [| exact Hs2 | exact H3].
    intros l _ sta [] stb Ha Hl.
    apply submit_locale_Returns in Hl as (_ & -> & _). done. }
  by apply singleton_subseteq_l.
Qed.

Lemma find_source_is_Some_app k d d' :
  is_Some (find_source k d) ->
  (exists xs, sources d' = sources d ++ xs) ->
  is_Some (find_source k d').
Proof.
  intros [s Hs] [xs Hxs]. exists s. unfold find_source in *.
  rewrite Hxs. by apply find_app_Some.
Qed.

Lemma create_translations_seen_have_sources fuel instance b :
  preserves seen_have_sources (create_translations fuel instance b).
Proof.
  apply create_translations_preserves.
  - intros i st [s c] st1 HS H k Hk.
    apply enter_Returns in H as (_ & _ & Hf & Hseen & _ & Hcase).
    rewrite Hseen in Hk. apply elem_of_union in Hk as [Hk|Hk].
    + apply elem_of_singleton in Hk as ->. by exists s.
    + eapply find_source_is_Some_app; [by apply HS |].
      destruct Hcase as [(_ & _ & -> & _)|(_ & _ & _ & -> & _)];
        [by exists []; rewrite app_nil_r | by eexists].
  - intros s l _ st [] st1 HS H k Hk.
    apply submit_locale_Returns in H as (_ & Hseen & Hsrc & _).
    rewrite Hseen in Hk. eapply find_source_is_Some_app; [by apply HS |].
    exists []. by rewrite app_nil_r.
Qed.

(** *** The ledger: what a stretch of a run added *)

Lemma accounted_start st : accounted (trace st) (db st) st.
Proof.
  exists []. unfold ledger. simpl. rewrite !app_nil_r.
  repeat split; try done; try constructor; intros ? H; inversion H.
Qed.

Lemma enter_accounted T0 d0 instance :
  preserves (accounted T0 d0) (enter instance).
Proof.
  intros st [s c] st1 (evs & HT & HS & HTr & Hsv & Hnd & Hfr & Hndt & Hfrt) H.
  apply enter_Returns in H as (_ & Hk & _ & _ & Htr1 & Hcase).
  destruct Hcase as [(_ & _ & Hs1 & Ht1)|(_ & Hnone & _ & Hs1 & Ht1)].
  - exists evs. unfold ledger. rewrite Ht1, Hs1, Htr1. by repeat split.
  - exists (evs ++ [SourceCreated s]). unfold ledger.
    rewrite Ht1, Hs1, Htr1, HT, HS, HTr, !omap_app, <- !app_assoc. simpl.
    rewrite ?app_nil_r.
    apply find_source_None in Hnone. rewrite HS, fmap_app in Hnone.
    assert (translation_key instance ∉ object_id <$> sources d0) as Hn0
      by (intros ?; apply Hnone, elem_of_app; by left).
    assert (translation_key instance ∉ object_id <$> omap created_source evs)
      as Hn1 by (intros ?; apply Hnone, elem_of_app; by right).
    repeat split; try done.
    + rewrite fmap_app. apply NoDup_app. repeat split; [done | | ].
      * intros k Hin Hin'. simpl in Hin'.
        apply list_elem_of_singleton in Hin'. subst k. by rewrite Hk in Hin.
      * simpl. apply NoDup_singleton.
    + intros s' Hin. apply elem_of_app in Hin as [Hin|Hin]; [by apply Hfr|].
      apply list_elem_of_singleton in Hin. subst s'. by rewrite Hk.
Qed.

Lemma submit_locale_accounted T0 d0 s l :
  preserves (accounted T0 d0) (submit_locale s l).
Proof.
  intros st [] st1 (evs & HT & HS & HTr & Hsv & Hnd & Hfr & Hndt & Hfrt) H.
  apply submit_locale_Returns in H as (_ & _ & Hs1 & _ & Hcase).
  destruct Hcase as [(_ & Htr1 & Ht1)|(Hnew & _ & Htr1 & Ht1)].
  - exists evs. unfold ledger. rewrite Ht1, Hs1, Htr1. by repeat split.
  - exists (evs ++ [TranslationCreated (mkTranslation s l);
                    SaveTarget (mkTranslation s l) user]).
    unfold ledger.
    rewrite Ht1, Hs1, Htr1, HT, HS, HTr, !omap_app, <- !app_assoc. simpl.
    rewrite ?app_nil_r. rewrite HTr in Hnew.
    assert (mkTranslation s l ∉ translations d0) as Hn0
      by (intros ?; apply Hnew, elem_of_app; by left).
    assert (mkTranslation s l ∉ omap created_translation evs) as Hn1
      by (intros ?; apply Hnew, elem_of_app; by right).
    repeat split; try done.
    + rewrite fmap_app, Hsv. done.
    + apply NoDup_app. repeat split; [done | | apply NoDup_singleton].
      intros t Hin Hin'. apply list_elem_of_singleton in Hin'. by subst t.
    + intros t Hin. apply elem_of_app in Hin as [Hin|Hin]; [by apply Hfrt|].
      apply list_elem_of_singleton in Hin. by subst t.
Qed.

Lemma create_translations_accounted T0 d0 fuel instance b :
  preserves (accounted T0 d0) (create_translations fuel instance b).
Proof.
  apply create_translations_preserves;
    [apply enter_accounted | intros s l _; apply submit_locale_accounted].
Qed.

Lemma ledger_count_sources T0 d0 evs st k :
  ledger T0 d0 evs st -> find_source k d0 = None ->
  count_sources k (db st) <= 1.
Proof.
  intros (_ & HS & _ & _ & Hnd & _) Hnone. unfold count_sources.
  rewrite HS, filter_app, length_app.
  apply find_source_None in Hnone.
  rewrite (filter_key_absent object_id k _ Hnone). simpl.
  by apply filter_key_NoDup.
Qed.

(** *** Runs that meet no failure *)

Lemma enter_source_for instance st s c st1 :
  enter instance st = Returns ((s, c), st1) -> s = source_for instance (db st).
Proof.
  intros H. apply enter_Returns in H as (_ & _ & _ & _ & _ & Hcase).
  unfold source_for.
  destruct Hcase as [(_ & -> & _)|(_ & -> & -> & _)]; reflexivity.
Qed.

Lemma enter_returns instance st :
  no_storage_failure ->
  exists c st1,
    enter instance st = Returns ((source_for instance (db st), c), st1).
Proof.
  intros Hok. unfold enter, bind, add_seen, get_or_create_from_instance.
  rewrite Hok. unfold source_for. simpl.
  destruct (find_source _ (db st)); eauto.
Qed.

Lemma submit_locale_returns s l :
  no_storage_failure -> returns (submit_locale s l).
Proof.
  intros Hok st.
  unfold submit_locale, bind, Translation_get_or_create, save_target.
  rewrite Hok. destruct (find_translation _ _ _); [eauto|].
  rewrite Hok. eauto.
Qed.

Lemma create_translations_shallow_returns fuel instance :
  no_storage_failure -> returns (create_translations (S fuel) instance false).
Proof.
  intros Hok st.
  destruct (decide (translation_key (concrete instance) ∈ seen_objects st)).
  - rewrite create_translations_seen by done. eauto.
  - rewrite create_translations_fresh by done.
    destruct (enter_returns (concrete instance) st Hok) as (c & st1 & He).
    rewrite (bind_step _ _ _ _ _ He). simpl.
    destruct (returns_for_each (submit_locale (source_for (concrete instance)
                                                          (db st)))
                               target_locales) with (st := st1)
      as ([] & st' & Hl).
    { intros l _. by apply submit_locale_returns. }
    exists tt, st'. unfold bind, ret. exact Hl.
Qed.

(** With no failure of the storage layer and every related object of the
    instance's source present in the instance's locale, a call returns. *)
Lemma create_translations_returns fuel instance b st :
  no_storage_failure ->
  (forall r, r ∈ relatedobjectsegment_set w
                   (source_for (concrete instance) (db st)) ->
             is_Some (get_instance w r (locale (concrete instance)))) ->
  exists st',
    create_translations (S (S fuel)) instance b st = Returns (tt, st').
Proof.
  intros Hok Hres.
  destruct (decide (translation_key (concrete instance) ∈ seen_objects st)).
  - rewrite create_translations_seen by done. eauto.
  - rewrite create_translations_fresh by done.
    destruct (enter_returns (concrete instance) st Hok) as (c & st1 & He).
    rewrite (bind_step _ _ _ _ _ He). simpl.
    assert (exists st2,
      (if b then
         for_each (submit_related (S fuel) (concrete instance))
           (relatedobjectsegment_set w
              (source_for (concrete instance) (db st)))
       else ret tt) st1 = Returns (tt, st2)) as (st2 & Hrel).
    { destruct b; [| by exists st1].
      destruct (returns_for_each
                  (submit_related (S fuel) (concrete instance))
                  (relatedobjectsegment_set w
                     (source_for (concrete instance) (db st))))
        with (st := st1) as ([] & st2 & H2); [| by exists st2].
      intros r Hr sta. destruct (Hres r Hr) as [ri Hri].
      rewrite (submit_related_step _ _ _ _ _ Hri).
      apply create_translations_shallow_returns, Hok. }
    rewrite (bind_step _ _ _ _ _ Hrel).
    destruct (returns_for_each (submit_locale (source_for (concrete instance)
                                                          (db st)))
                               target_locales) with (st := st2)
      as ([] & st' & Hl).
    { intros l _. by apply submit_locale_returns. }
    by exists st'.
Qed.

(** Every related object the loop went over is in the seen set after it. *)
Lemma related_loop_marks fuel instance rs st st' :
  for_each (submit_related (S fuel) instance) rs st = Returns (tt, st') ->
  forall r ri, r ∈ rs -> get_instance w r (locale instance) = Some ri ->
    translation_key (concrete ri) ∈ seen_objects st'.
Proof.
  revert st. induction rs as [|r0 rs IH]; intros st Hrun r ri Hr Hri.
  - inversion Hr.
  - simpl in Hrun. apply bind_Returns in Hrun as ([] & st1 & H1 & H2).
    apply elem_of_cons in Hr as [->|Hr]; [| by eapply IH].
    apply submit_related_Returns in H1 as (ri' & Hri' & H1).
    assert (ri' = ri) as -> by congruence.
    apply create_translations_marks in H1.
    apply singleton_subseteq_l.
    eapply (preserves_for_each (fun st => _ ⊆ seen_objects st));
      [| | exact H2]; [| by apply singleton_subseteq_l].
    intros x _ sta [] stb Ha Hx.
    apply submit_related_Returns in Hx as (rx & _ & Hx).
    eapply create_translations_seen_mono; eauto.
Qed.

Lemma locale_loop_seen s ls st st' :
  for_each (submit_locale s) ls st = Returns (tt, st') ->
  seen_objects st' = seen_objects st.
Proof.
  intros H.
  eapply (preserves_for_each (fun x => seen_objects x = seen_objects st));
    [| | exact H]; [| done].
  intros l _ sta [] stb Ha Hl.
  apply submit_locale_Returns in Hl as (_ & -> & _). done.
Qed.

Lemma create_translations_marks_related fuel instance st st' r ri :
  create_translations (S (S fuel)) instance true st = Returns (tt, st') ->
  translation_key (concrete instance) ∉ seen_objects st ->
  r ∈ relatedobjectsegment_set w (source_for (concrete instance) (db st)) ->
  get_instance w r (locale (concrete instance)) = Some ri ->
  translation_key (concrete ri) ∈ seen_objects st'.
Proof.
  intros Hrun Hfresh Hr Hri.
  apply create_translations_Returns in Hrun
    as [[Hin _]|(_ & s & c & st1 & st2 & H1 & H2 & H3)]; [done|].
  apply enter_source_for in H1 as ->.
  rewrite (locale_loop_seen _ _ _ _ H3).
  eapply related_loop_marks; eauto.
Qed.

(** *** Which sources a call can add *)

Lemma locale_loop_sources s ls st st' :
  for_each (submit_locale s) ls st = Returns (tt, st') ->
  sources (db st') = sources (db st).
Proof.
  intros H.
  eapply (preserves_for_each (fun x => sources (db x) = sources (db st)));
    [| | exact H]; [| done].
  intros l _ sta [] stb Ha Hl.
  apply submit_locale_Returns in Hl as (_ & _ & -> & _). done.
Qed.

Lemma enter_sources instance st s c st1 x :
  enter instance st = Returns ((s, c), st1) ->
  x ∈ sources (db st1) ->
  x ∈ sources (db st) \/ object_id x = translation_key instance.
Proof.
  intros H Hx. apply enter_Returns in H as (_ & Hk & _ & _ & _ & Hcase).
  destruct Hcase as [(_ & _ & Hs & _)|(_ & _ & _ & Hs & _)];
    rewrite Hs in Hx; [by left|].
  apply elem_of_app in Hx as [Hx|Hx]; [by left|].
  apply list_elem_of_singleton in Hx as ->. by right.
Qed.

(** A call that does not expand related objects adds at most the source of
    its own instance. *)
Lemma create_translations_shallow_sources fuel instance st st' x :
  create_translations (S fuel) instance false st = Returns (tt, st') ->
  x ∈ sources (db st') ->
  x ∈ sources (db st) \/ object_id x = translation_key (concrete instance).
Proof.
  intros Hrun Hx.
  apply create_translations_Returns in Hrun
    as [[_ ->]|(_ & s & c & st1 & st2 & H1 & H2 & H3)]; [by left|].
  injection H2 as <-. rewrite (locale_loop_sources _ _ _ _ H3) in Hx.
  by eapply enter_sources.
Qed.

Lemma related_loop_sources fuel instance rs st st' x :
  for_each (submit_related (S fuel) instance) rs st = Returns (tt, st') ->
  x ∈ sources (db st') ->
  x ∈ sources (db st) \/
  exists r ri, r ∈ rs /\ get_instance w r (locale instance) = Some ri /\
               object_id x = translation_key (concrete ri).
Proof.
  revert st. induction rs as [|r0 rs IH]; intros st Hrun Hx.
  - injection Hrun as <-. by left.
  - simpl in Hrun. apply bind_Returns in Hrun as ([] & st1 & H1 & H2).
    destruct (IH _ H2 Hx) as [Hx1|(r & ri & Hr & Hg & Hk)].
    + apply submit_related_Returns in H1 as (ri & Hg & H1).
      destruct (create_translations_shallow_sources _ _ _ _ _ H1 Hx1)
        as [?|Hk]; [by left|].
      right. exists r0, ri. split; [left | done].
    + right. exists r, ri. split; [by right | done].
Qed.

(** A call that expands related objects adds sources for its own instance
    and for the related objects of its source, and for nothing else. *)
Lemma create_translations_sources fuel instance st st' x :
  create_translations (S (S fuel)) instance true st = Returns (tt, st') ->
  x ∈ sources (db st') ->
  x ∈ sources (db st) \/
  object_id x = translation_key (concrete instance) \/
  exists r ri,
    r ∈ relatedobjectsegment_set w (source_for (concrete instance) (db st)) /\
    get_instance w r (locale (concrete instance)) = Some ri /\
    object_id x = translation_key (concrete ri).
Proof.
  intros Hrun Hx.
  apply create_translations_Returns in Hrun
    as [[_ ->]|(_ & s & c & st1 & st2 & H1 & H2 & H3)]; [by left|].
  rewrite (locale_loop_sources _ _ _ _ H3) in Hx.
  pose proof (enter_source_for _ _ _ _ _ H1) as ->.
  destruct (related_loop_sources _ _ _ _ _ _ H2 Hx) as [Hx1|Hrel].
  - destruct (enter_sources _ _ _ _ _ _ H1 Hx1) as [?|?]; [by left|].
    right. by left.
  - right. by right.
Qed.

Lemma count_sources_absent k d :
  find_source k d = None -> count_sources k d = 0.
Proof.
  intros H. apply find_source_None in H. unfold count_sources.
  by rewrite (filter_key_absent object_id k _ H).
Qed.

(** *** The translations of a source *)

Lemma submit_locale_keeps t s l :
  preserves (fun st => t ∈ translations (db st)) (submit_locale s l).
Proof.
  intros st [] st' Hin H.
  apply submit_locale_Returns in H as (_ & _ & _ & _ & Hcase).
  destruct Hcase as [(_ & -> & _)|(_ & _ & -> & _)]; [done|].
  apply elem_of_app. by left.
Qed.

Lemma locale_loop_covers s ls st st' l :
  for_each (submit_locale s) ls st = Returns (tt, st') ->
  l ∈ ls -> mkTranslation s l ∈ translations (db st').
Proof.
  revert st. induction ls as [|l0 ls IH]; intros st Hrun Hl.
  - inversion Hl.
  - simpl in Hrun. apply bind_Returns in Hrun as ([] & st1 & H1 & H2).
    apply elem_of_cons in Hl as [->|Hl]; [| by eapply IH].
    apply submit_locale_Returns in H1 as (_ & _ & _ & Hin & _).
    eapply (preserves_for_each
              (fun x => mkTranslation s l0 ∈ translations (db x)));
      [| exact Hin | exact H2].
    intros x _. apply submit_locale_keeps.
Qed.

Lemma create_translations_keeps_source k s fuel instance b :
  preserves (fun st => find_source k (db st) = Some s)
            (create_translations fuel instance b).
Proof.
  apply create_translations_preserves.
  - intros i st [s' c] st1 Hf H.
    apply enter_Returns in H as (_ & _ & _ & _ & _ & Hcase).
    unfold find_source in *.
    destruct Hcase as [(_ & _ & -> & _)|(_ & _ & _ & -> & _)]; [done|].
    by apply find_app_Some.
  - intros s' l _ st [] st1 Hf H.
    apply submit_locale_Returns in H as (_ & _ & Hs & _).
    unfold find_source in *. by rewrite Hs.
Qed.

Lemma ledger_NoDup_translations T0 d0 evs st :
  ledger T0 d0 evs st -> NoDup (translations d0) ->
  NoDup (translations (db st)).
Proof.
  intros (_ & _ & -> & _ & _ & _ & Hnd & Hfr) Hnd0.
  apply NoDup_app. repeat split; [done | | done].
  intros t Hin0 Hin. by apply (Hfr t).
Qed.

Lemma ledger_NoDup_sources T0 d0 evs st :
  ledger T0 d0 evs st -> NoDup (object_id <$> sources d0) ->
  NoDup (object_id <$> sources (db st)).
Proof.
  intros (_ & -> & _ & _ & Hnd & Hfr & _) Hnd0.
  rewrite fmap_app. apply NoDup_app. repeat split; [done | | done].
  intros k Hin0 Hin. apply list_elem_of_fmap in Hin as (x & -> & Hx).
  by apply (Hfr x).
Qed.

Lemma count_translations_NoDup t d :
  NoDup (translations d) -> t ∈ translations d -> count_translations t d = 1.
Proof.
  intros Hnd Hin. unfold count_translations. apply Nat.le_antisymm.
  - apply (filter_key_NoDup id t). by rewrite list_fmap_id.
  - apply (filter_key_present id t). by rewrite list_fmap_id.
Qed.

(** In a table without duplicates that holds a translation of [s] into each
    of the locales [ls], these translations are as many as the locales. *)
Lemma translations_of_source_length s (ls : list Locale) (ts : list Translation) :
  NoDup ts -> NoDup ls ->
  (forall l, l ∈ ls -> mkTranslation s l ∈ ts) ->
  length (filter (fun t => source t = s /\ target_locale t ∈ ls) ts)
  = length ls.
Proof.
  intros Hts Hls Hcov.
  rewrite <- (length_fmap (mkTranslation s) ls).
  apply Permutation_length, NoDup_Permutation.
  - by apply NoDup_filter.
  - apply NoDup_fmap_2; [| done]. intros l1 l2 [= ->]. done.
  - intros [s' l']. rewrite list_elem_of_filter, list_elem_of_fmap. simpl.
    split.
    + intros [[-> Hl] _]. by exists l'.
    + intros (l & [= -> ->] & Hl). split; [done | by apply Hcov].
Qed.

(** *** The order of events *)

Lemma emitted_start Q st : emitted (trace st) Q st.
Proof. exists []. by rewrite app_nil_r. Qed.

Lemma emitted_more T Q st st' evs :
  emitted T Q st -> trace st' = trace st ++ evs -> Forall Q evs ->
  emitted T Q st'.
Proof.
  intros (evs0 & HT & HQ) Htr Hevs. exists (evs0 ++ evs).
  rewrite Htr, HT, app_assoc. split; [done | by apply Forall_app].
Qed.

Lemma emitted_trans T Q st st' :
  emitted T Q st -> emitted (trace st) Q st' -> emitted T Q st'.
Proof. intros H (evs & Htr & HQ). by eapply emitted_more. Qed.

(** The loop over the locales adds only translation events of its source. *)
Lemma locale_loop_events s ls st st' :
  for_each (submit_locale s) ls st = Returns (tt, st') ->
  emitted (trace st)
          (fun e => is_task_event e = true /\ event_source e = s) st'.
Proof.
  intros H.
  eapply (preserves_for_each (emitted (trace st) _));
    [| apply emitted_start | exact H].
  intros l _ sta [] stb Ha Hl.
  apply submit_locale_Returns in Hl as (_ & _ & _ & _ & Hcase).
  destruct Hcase as [(_ & _ & Htr)|(_ & _ & _ & Htr)].
  - eapply emitted_more; [exact Ha | by rewrite Htr, app_nil_r | constructor].
  - eapply emitted_more; [exact Ha | exact Htr |].
    repeat constructor.
Qed.

(** While [k] is in the seen set, a nested call adds no event about [k]. *)
Lemma create_translations_shallow_events k fuel instance st st' :
  create_translations (S fuel) instance false st = Returns (tt, st') ->
  k ∈ seen_objects st ->
  emitted (trace st) (fun e => object_id (event_source e) <> k) st'.
Proof.
  intros Hrun Hk.
  apply create_translations_Returns in Hrun
    as [[_ ->]|(Hfresh & s & c & st1 & st2 & H1 & H2 & H3)];
    [apply emitted_start|].
  injection H2 as <-.
  assert (object_id s <> k) as Hne.
  { apply enter_Returns in H1 as (_ & -> & _). by intros <-. }
  assert (emitted (trace st) (fun e => object_id (event_source e) <> k) st1)
    as Hem1.
  { apply enter_Returns in H1 as (_ & _ & _ & _ & _ & Hcase).
    destruct Hcase as [(_ & _ & _ & Htr)|(_ & _ & _ & _ & Htr)].
    - eapply emitted_more;
        [apply emitted_start | by rewrite Htr, app_nil_r | constructor].
    - eapply emitted_more; [apply emitted_start | exact Htr |].
      by repeat constructor. }
  eapply emitted_trans; [exact Hem1|].
  destruct (locale_loop_events _ _ _ _ H3) as (evs & Htr & HQ).
  exists evs. split; [done|].
  eapply Forall_impl; [exact HQ|]. by intros e [_ ->].
Qed.

Lemma related_loop_events k fuel instance rs st st' :
  for_each (submit_related (S fuel) instance) rs st = Returns (tt, st') ->
  k ∈ seen_objects st ->
  emitted (trace st) (fun e => object_id (event_source e) <> k) st'.
Proof.
  intros H Hk.
  eapply (preserves_for_each
            (fun x => k ∈ seen_objects x /\ emitted (trace st) _ x));
    [| split; [exact Hk | apply emitted_start] | exact H].
  intros r _ sta [] stb [Hka Ha] Hr.
  apply submit_related_Returns in Hr as (ri & _ & Hr). split.
  - apply singleton_subseteq_l.
    eapply create_translations_seen_mono; [| exact Hr].
    by apply singleton_subseteq_l.
  - eapply emitted_trans; [exact Ha|].
    by eapply create_translations_shallow_events.
Qed.

(** The events of a call fall in two stretches: first the source of the
    instance and everything about the related objects, then the
    translations of the instance's own source and nothing else. *)
Lemma create_translations_events fuel instance st st' :
  create_translations (S fuel) instance true st = Returns (tt, st') ->
  exists pre post,
    trace st' = trace st ++ pre ++ post /\
    Forall (fun e => is_task_event e = false \/
                     object_id (event_source e)
                     <> translation_key (concrete instance)) pre /\
    Forall (fun e => object_id (event_source e)
                     = translation_key (concrete instance)) post.
Proof.
  intros Hrun.
  apply create_translations_Returns in Hrun
    as [[_ ->]|(Hfresh & s & c & st1 & st2 & H1 & H2 & H3)].
  { exists [], []. by rewrite app_nil_r. }
  pose proof (enter_Returns _ _ _ _ _ H1)
    as (_ & Hks & _ & Hseen & _ & Hcase).
  assert (exists e1, trace st1 = trace st ++ e1 /\
                     Forall (fun e => is_task_event e = false) e1)
    as (e1 & Ht1 & He1).
  { destruct Hcase as [(_ & _ & _ & ->)|(_ & _ & _ & _ & ->)].
    - exists []. by rewrite app_nil_r.
    - eexists. split; [done|]. by repeat constructor. }
  destruct fuel as [|fuel].
  { (* with one level of fuel the loop over related objects is empty *)
    destruct (relatedobjectsegment_set w s) as [|r rs] eqn:Hrs.
    - injection H2 as <-.
      destruct (locale_loop_events _ _ _ _ H3) as (e3 & Ht3 & He3).
      exists e1, e3. rewrite Ht3, Ht1, app_assoc. split; [done | split].
      + eapply Forall_impl; [exact He1|]. intros e He. by left.
      + eapply Forall_impl; [exact He3|]. intros e [_ ->]. done.
    - simpl in H2. apply bind_Returns in H2 as ([] & stx & Hx & _).
      apply submit_related_Returns in Hx as (ri & _ & Hx). discriminate. }
  destruct (related_loop_events (translation_key (concrete instance))
              _ _ _ _ _ H2) as (e2 & Ht2 & He2).
  { rewrite Hseen. apply elem_of_union. left. by apply elem_of_singleton. }
  destruct (locale_loop_events _ _ _ _ H3) as (e3 & Ht3 & He3).
  exists (e1 ++ e2), e3. rewrite Ht3, Ht2, Ht1, !app_assoc.
  split; [done | split].
  - apply Forall_app. split.
    + eapply Forall_impl; [exact He1|]. intros e He. by left.
    + eapply Forall_impl; [exact He2|]. intros e He. by right.
  - eapply Forall_impl; [exact He3|]. intros e [_ ->]. done.
Qed.

(** *** Forced failures *)

Lemma locale_loop_raises s ls l st :
  l ∈ ls -> storage_fails w (OpTranslation s l) = true ->
  exists e, for_each (submit_locale s) ls st = Raises e.
Proof.
  intros Hl Hfail. revert st. induction ls as [|l0 ls IH]; intros st.
  - inversion Hl.
  - simpl. destruct (submit_locale s l0 st) as [[[] st1]|e|] eqn:E.
    + rewrite (bind_step _ _ _ _ _ E).
      apply elem_of_cons in Hl as [->|Hl]; [| by apply IH].
      apply submit_locale_Returns in E as (E & _). congruence.
    + exists e. by apply bind_Raises.
    + by apply submit_locale_fuelled in E.
Qed.

(** A call for an object not yet seen raises when the storage layer refuses
    the object's source. *)
Lemma create_translations_raises_source fuel instance b st :
  translation_key (concrete instance) ∉ seen_objects st ->
  storage_fails w (OpSource (translation_key (concrete instance))) = true ->
  create_translations (S fuel) instance b st
  = Raises (DatabaseError (OpSource (translation_key (concrete instance)))).
Proof.
  intros Hfresh Hfail. rewrite create_translations_fresh by done.
  apply bind_Raises.
  unfold enter, bind, add_seen, get_or_create_from_instance.
  by rewrite Hfail.
Qed.

(** A call for an object not yet seen raises when the storage layer refuses
    one of the translations of the object's source. *)
Lemma create_translations_raises fuel instance b l st :
  translation_key (concrete instance) ∉ seen_objects st ->
  l ∈ target_locales ->
  (forall s, object_id s = translation_key (concrete instance) ->
             storage_fails w (OpTranslation s l) = true) ->
  exists e, create_translations (S (S fuel)) instance b st = Raises e.
Proof.
  intros Hfresh Hl Hfail. rewrite create_translations_fresh by done.
  destruct (enter (concrete instance) st) as [[[s c] st1]|e|] eqn:E.
  - rewrite (bind_step _ _ _ _ _ E). simpl.
    apply enter_Returns in E as (_ & Hk & _).
    destruct ((if b then
                 for_each (submit_related (S fuel) (concrete instance))
                          (relatedobjectsegment_set w s)
               else ret tt) st1) as [[[] st2]|e|] eqn:E2.
    + rewrite (bind_step _ _ _ _ _ E2).
      apply locale_loop_raises with (l := l); [done | by apply Hfail].
    + exists e. by apply bind_Raises.
    + exfalso. revert E2. destruct b; [| discriminate].
      apply fuelled_for_each. intros r. apply submit_related_fuelled.
  - exists e. by apply bind_Raises.
  - by apply enter_fuelled in E.
Qed.

(** *** Tables only grow *)

Lemma db_prefix_refl d : db_prefix d d.
Proof. by split. Qed.

Lemma db_prefix_trans d1 d2 d3 :
  db_prefix d1 d2 -> db_prefix d2 d3 -> db_prefix d1 d3.
Proof. intros [? ?] [? ?]. split; by etrans. Qed.

Lemma find_source_prefix k d D s :
  db_prefix d D -> find_source k d = Some s -> find_source k D = Some s.
Proof.
  intros [[xs Hxs] _] H. unfold find_source in *. rewrite Hxs.
  by apply find_app_Some.
Qed.

Lemma translations_prefix t d D :
  db_prefix d D -> t ∈ translations d -> t ∈ translations D.
Proof.
  intros [_ [xs Hxs]] H. rewrite Hxs. apply elem_of_app. by left.
Qed.

Lemma enter_grows d0 instance :
  preserves (fun st => db_prefix d0 (db st)) (enter instance).
Proof.
  intros st [s c] st1 Hp H. eapply db_prefix_trans; [exact Hp|].
  apply enter_Returns in H as (_ & _ & _ & _ & Htr & Hcase).
  split; [| by rewrite Htr].
  destruct Hcase as [(_ & _ & -> & _)|(_ & _ & _ & -> & _)];
    [done | by eexists].
Qed.

Lemma submit_locale_grows d0 s l :
  preserves (fun st => db_prefix d0 (db st)) (submit_locale s l).
Proof.
  intros st [] st1 Hp H. eapply db_prefix_trans; [exact Hp|].
  apply submit_locale_Returns in H as (_ & _ & Hs & _ & Hcase).
  split; [by rewrite Hs|].
  destruct Hcase as [(_ & -> & _)|(_ & _ & -> & _)]; [done | by eexists].
Qed.

Lemma create_translations_grows d0 fuel instance b :
  preserves (fun st => db_prefix d0 (db st))
            (create_translations fuel instance b).
Proof.
  apply create_translations_preserves;
    [apply enter_grows | intros s l _; apply submit_locale_grows].
Qed.

Lemma for_each_grows {X} (body : X -> M unit) xs st st' :
  (forall x d0, preserves (fun st => db_prefix d0 (db st)) (body x)) ->
  for_each body xs st = Returns (tt, st') ->
  db_prefix (db st) (db st').
Proof.
  intros Hbody H.
  eapply (preserves_for_each (fun x => db_prefix (db st) (db x)));
    [| apply db_prefix_refl | exact H].
  intros x _. apply Hbody.
Qed.

Lemma submit_related_grows d0 fuel instance r :
  preserves (fun st => db_prefix d0 (db st)) (submit_related fuel instance r).
Proof.
  intros st [] st1 Hp H.
  apply submit_related_Returns in H as (ri & _ & H).
  eapply create_translations_grows; eauto.
Qed.

(** *** Running again over the database a run left *)

Lemma enter_replay D T instance st s c st1 st2 :
  enter instance st = Returns ((s, c), st1) ->
  db_prefix (db st1) D -> replays D T st st2 ->
  exists st2', enter instance st2 = Returns ((s, false), st2') /\
               replays D T st1 st2'.
Proof.
  intros H Hp (Hseen & HD & HT).
  apply enter_Returns in H as (Hok & _ & Hf & Hseen1 & _).
  pose proof (find_source_prefix _ _ _ _ Hp Hf) as HfD.
  exists (mkState ({[translation_key instance]} ∪ seen_objects st2)
                 (db st2) (trace st2)).
  split.
  - unfold enter, bind, add_seen, get_or_create_from_instance. simpl.
    rewrite Hok, HD, HfD. reflexivity.
  - unfold replays. simpl. by rewrite Hseen1, Hseen.
Qed.

Lemma submit_locale_replay D T s l st st' st2 :
  submit_locale s l st = Returns (tt, st') ->
  db_prefix (db st') D -> replays D T st st2 ->
  submit_locale s l st2 = Returns (tt, st2) /\ replays D T st' st2.
Proof.
  intros H Hp (Hseen & HD & HT).
  apply submit_locale_Returns in H as (Hok & Hseen1 & _ & Hin & _).
  pose proof (translations_prefix _ _ _ Hp Hin) as HinD.
  split.
  - unfold submit_locale, bind, Translation_get_or_create.
    rewrite Hok, HD.
    destruct (find_translation s l D) as [t|] eqn:Hf.
    + reflexivity.
    + by apply find_translation_None in Hf.
  - unfold replays. by rewrite Hseen1.
Qed.

Lemma for_each_replay {X} D T (body : X -> M unit) xs :
  (forall x d0, preserves (fun st => db_prefix d0 (db st)) (body x)) ->
  (forall x st st' st2,
     x ∈ xs -> body x st = Returns (tt, st') ->
     db_prefix (db st') D -> replays D T st st2 ->
     exists st2', body x st2 = Returns (tt, st2') /\ replays D T st' st2') ->
  forall st st' st2,
    for_each body xs st = Returns (tt, st') ->
    db_prefix (db st') D -> replays D T st st2 ->
    exists st2', for_each body xs st2 = Returns (tt, st2') /\
                 replays D T st' st2'.
Proof.
  intros Hgrow. induction xs as [|x xs IH]; intros Hbody st st' st2 H Hp Hr.
  - injection H as <-. by exists st2.
  - simpl in H. apply bind_Returns in H as ([] & st1 & H1 & H2).
    pose proof (for_each_grows _ _ _ _ Hgrow H2) as Hg.
    destruct (Hbody x st st1 st2) as (st2a & Ha & Hra);
      [left | done | by eapply db_prefix_trans | done |].
    destruct (IH (fun y sa sb sc Hy => Hbody y sa sb sc
                    (list_elem_of_further _ _ _ Hy)) st1 st' st2a)
      as (st2b & Hb & Hrb); [done | done | done |].
    exists st2b. split; [| done]. simpl. by rewrite (bind_step _ _ _ _ _ Ha).
Qed.

(** A call that returned returns again when it is run over a database that
    holds what it left, and then adds nothing. *)
Lemma create_translations_replay D T fuel instance b st st' st2 :
  create_translations fuel instance b st = Returns (tt, st') ->
  db_prefix (db st') D -> replays D T st st2 ->
  exists st2', create_translations fuel instance b st2 = Returns (tt, st2') /\
               replays D T st' st2'.
Proof.
  revert instance b st st' st2.
  induction fuel as [|fuel IH]; intros i b st st' st2 Hrun Hp Hr;
    [discriminate|].
  pose proof Hr as (Hseen & _).
  apply create_translations_Returns in Hrun
    as [[Hin ->]|(Hfresh & s & c & st1 & sta & H1 & H2 & H3)].
  { exists st2. split; [| done].
    apply create_translations_seen. by rewrite Hseen. }
  assert (db_prefix (db sta) (db st')) as Hg3.
  { eapply for_each_grows; [| exact H3].
    intros l d0. apply submit_locale_grows. }
  assert (db_prefix (db st1) (db sta)) as Hg2.
  { destruct b; [| injection H2 as <-; apply db_prefix_refl].
    eapply for_each_grows; [| exact H2].
    intros r d0. apply submit_related_grows. }
  destruct (enter_replay D T _ _ _ _ _ st2 H1) as (st2a & Ha & Hra);
    [by do 2 (eapply db_prefix_trans; [eassumption|]) | done |].
  assert (exists st2b,
    (if b then
       for_each (submit_related fuel (concrete i))
                (relatedobjectsegment_set w s)
     else ret tt) st2a = Returns (tt, st2b) /\ replays D T sta st2b)
    as (st2b & Hb & Hrb).
  { destruct b; [| injection H2 as <-; by exists st2a].
    eapply (for_each_replay D T); [| | exact H2 | | exact Hra].
    - intros r d0. apply submit_related_grows.
    - intros r sx sy sz _ Hx Hpx Hrx.
      apply submit_related_Returns in Hx as (ri & Hri & Hx).
      rewrite (submit_related_step _ _ _ _ _ Hri). by eapply IH.
    - by eapply db_prefix_trans. }
  destruct (for_each_replay D T (submit_locale s) target_locales)
    with (st := sta) (st' := st') (st2 := st2b) as (st2c & Hc & Hrc);
    [| | done | done | done |].
  - intros l d0. apply submit_locale_grows.
  - intros l sx sy sz _ Hx Hpx Hrx. exists sz.
    by eapply submit_locale_replay.
  - exists st2c. split; [| done].
    rewrite create_translations_fresh by (by rewrite Hseen).
    rewrite (bind_step _ _ _ _ _ Ha). simpl.
    by rewrite (bind_step _ _ _ _ _ Hb).
Qed.

(** *** Settled objects *)

Lemma settled_prefix k d D : db_prefix d D -> settled k d -> settled k D.
Proof.
  intros Hp (s & Hf & Hl). exists s.
  split; [by eapply find_source_prefix|].
  intros l Hin. eapply translations_prefix; [exact Hp | by apply Hl].
Qed.

Lemma locale_loop_settles s ls st st' k :
  for_each (submit_locale s) ls st = Returns (tt, st') ->
  find_source k (db st) = Some s ->
  (forall l, l ∈ target_locales -> l ∈ ls) ->
  settled k (db st').
Proof.
  intros H Hf Hls. exists s. split.
  - unfold find_source in *. by rewrite (locale_loop_sources _ _ _ _ H).
  - intros l Hl. eapply locale_loop_covers; [exact H | by apply Hls].
Qed.

Lemma create_translations_shallow_settles X fuel instance :
  preserves (settled_except X) (create_translations fuel instance false).
Proof.
  intros st [] st' HP Hrun. destruct fuel as [|fuel]; [discriminate|].
  apply create_translations_Returns in Hrun
    as [[_ ->]|(_ & s & c & st1 & st2 & H1 & H2 & H3)]; [done|].
  injection H2 as <-.
  assert (db_prefix (db st) (db st')) as Hg.
  { eapply db_prefix_trans.
    - eapply (enter_grows (db st)); [apply db_prefix_refl | exact H1].
    - eapply for_each_grows; [| exact H3].
      intros l d0. apply submit_locale_grows. }
  apply enter_Returns in H1 as (_ & _ & Hf & Hseen & _).
  intros k Hk HX. rewrite (locale_loop_seen _ _ _ _ H3), Hseen in Hk.
  apply elem_of_union in Hk as [Hk|Hk].
  - apply elem_of_singleton in Hk as ->.
    by eapply locale_loop_settles.
  - eapply settled_prefix; [exact Hg | by apply HP].
Qed.

(** When a call returns, every object the creator has seen is settled, if
    those seen before the call were. *)
Lemma create_translations_settles X fuel instance b :
  preserves (settled_except X) (create_translations fuel instance b).
Proof.
  destruct b; [| apply create_translations_shallow_settles].
  intros st [] st' HP Hrun. destruct fuel as [|fuel]; [discriminate|].
  apply create_translations_Returns in Hrun
    as [[_ ->]|(_ & s & c & st1 & st2 & H1 & H2 & H3)]; [done|].
  assert (db_prefix (db st) (db st1)) as Hg1
    by (eapply (enter_grows (db st)); [apply db_prefix_refl | exact H1]).
  assert (db_prefix (db st2) (db st')) as Hg3.
  { eapply for_each_grows; [| exact H3].
    intros l d0. apply submit_locale_grows. }
  apply enter_Returns in H1 as (_ & _ & Hf & Hseen & _).
  assert (settled_except (X ∪ {[translation_key (concrete instance)]}) st1)
    as HP1.
  { intros k Hk HX. rewrite Hseen in Hk.
    apply not_elem_of_union in HX as [HX Hne].
    apply elem_of_union in Hk as [Hk|Hk]; [done|].
    eapply settled_prefix; [exact Hg1 | by apply HP]. }
  assert (settled_except (X ∪ {[translation_key (concrete instance)]}) st2
          /\ find_source (translation_key (concrete instance)) (db st2)
             = Some s) as [HP2 Hf2].
  { eapply (preserves_for_each
              (fun x => settled_except _ x /\ find_source _ (db x) = Some s));
      [| split; [exact HP1 | exact Hf] | exact H2].
    intros r _ sta [] stb [Ha Hfa] Hr.
    apply submit_related_Returns in Hr as (ri & _ & Hr). split.
    - eapply create_translations_shallow_settles; eauto.
    - eapply create_translations_keeps_source; eauto. }
  intros k Hk HX. rewrite (locale_loop_seen _ _ _ _ H3) in Hk.
  destruct (decide (k = translation_key (concrete instance))) as [->|Hne].
  - by eapply locale_loop_settles.
  - eapply settled_prefix; [exact Hg3 |]. apply HP2; [done|].
    apply not_elem_of_union. split; [done|]. by apply not_elem_of_singleton.
Qed.

End RunFacts.

(** ** Objects and their sources *)

Lemma source_for_new w instance d :
  find_source (key_of w instance) d = None ->
  source_for (concrete w instance) d = new_source w instance.
Proof. unfold source_for, key_of. by intros ->. Qed.

Section FreshRun.

Variable w : World.
Variable user : User.
Variable target_locales : list Locale.

(** A run of a new creator on [root] that returns: what it leaves. *)
Variables (root : Instance) (d : Database) (st' : State).
Hypothesis Hrun :
  create_translations w user target_locales 2 root true
    (TranslationCreator_init d) = Returns (tt, st').

Lemma fresh_run_one_source k :
  k ∈ seen_objects st' -> find_source k d = None ->
  count_sources k (db st') = 1.
Proof.
  intros Hin Hnone.
  pose proof (create_translations_accounted w user target_locales [] d 2 root
                true _ tt st'
                (accounted_start user (TranslationCreator_init d)) Hrun)
    as [evs Hled].
  pose proof (create_translations_seen_have_sources w user target_locales
                2 root true (TranslationCreator_init d) tt st') as Hsrc.
  apply Nat.le_antisymm.
  - by eapply ledger_count_sources.
  - apply count_sources_found, Hsrc; [| done | done].
    intros k' Hk'. simpl in Hk'. by apply not_elem_of_empty in Hk'.
Qed.

Lemma fresh_run_has_source k :
  k ∈ seen_objects st' -> is_Some (find_source k (db st')).
Proof.
  intros Hin.
  eapply (create_translations_seen_have_sources w user target_locales
            2 root true (TranslationCreator_init d) tt st'); [| done | done].
  intros k' Hk'. simpl in Hk'. by apply not_elem_of_empty in Hk'.
Qed.

Lemma fresh_run_root_seen : key_of w root ∈ seen_objects st'.
Proof. eapply create_translations_marks, Hrun. Qed.

Lemma fresh_run_related_seen related :
  has_related w root (source_for (concrete w root) d) related ->
  key_of w related ∈ seen_objects st'.
Proof.
  intros (r & Hr & Hg).
  eapply (create_translations_marks_related w user target_locales 0 root);
    [exact Hrun | simpl; apply not_elem_of_empty | exact Hr | exact Hg].
Qed.

End FreshRun.

(** ** C1: cyclic dependencies *)

(** C1. When A has B as a related object and B has A, [create_translations]
    on A never runs out of fuel once it has two levels of it, in any state
    and whatever fails; the loop over the related objects starts with A's
    key already in the seen set; and from a new creator the call returns
    (the same state for any fuel from two up) with exactly one source for A
    and one for B in the table, neither of which had one before. *)
Theorem cycle_terminates_one_source_each
    (w : World) (user : User) (target_locales : list Locale)
    (A B : Instance) (d : Database) :
  no_storage_failure w ->
  key_of w A <> key_of w B ->
  find_source (key_of w A) d = None ->
  find_source (key_of w B) d = None ->
  related_resolve w A (new_source w A) ->
  has_related w A (new_source w A) B ->
  has_related w B (new_source w B) A ->
  (forall fuel b st,
     create_translations w user target_locales (S (S fuel)) A b st
     <> OutOfFuel) /\
  (forall fuel st st',
     key_of w A ∉ seen_objects st ->
     create_translations w user target_locales (S fuel) A true st
     = Returns (tt, st') ->
     exists s c st1 st2,
       enter w (concrete w A) st = Returns ((s, c), st1) /\
       key_of w A ∈ seen_objects st1 /\
       for_each (submit_related w user target_locales fuel (concrete w A))
                (relatedobjectsegment_set w s) st1 = Returns (tt, st2)) /\
  exists st',
    (forall fuel, 2 <= fuel ->
       create_translations w user target_locales fuel A true
         (TranslationCreator_init d) = Returns (tt, st')) /\
    count_sources (key_of w A) (db st') = 1 /\
    count_sources (key_of w B) (db st') = 1.
Proof.
  intros Hok Hne HnA HnB Hres HAB _.
  split; [intros fuel b; apply create_translations_fuelled|].
  split.
  { intros fuel st st1 Hfresh Hrun.
    apply create_translations_Returns in Hrun
      as [[Hin _]|(_ & s & c & sa & sb & H1 & H2 & _)]; [done|].
    exists s, c, sa, sb. split; [done | split; [| done]].
    apply enter_Returns in H1 as (_ & _ & _ & -> & _).
    apply elem_of_union. left. by apply elem_of_singleton. }
  pose proof (source_for_new w A d HnA) as HsA.
  destruct (create_translations_returns w user target_locales 0 A true
              (TranslationCreator_init d) Hok) as (st' & Hrun).
  { simpl. rewrite HsA. exact Hres. }
  exists st'. split.
  { intros [|[|fuel]] Hfuel; [lia | lia |].
    by rewrite create_translations_fuel. }
  split.
  - eapply fresh_run_one_source; [exact Hrun | | exact HnA].
    eapply fresh_run_root_seen, Hrun.
  - eapply fresh_run_one_source; [exact Hrun | | exact HnB].
    eapply fresh_run_related_seen; [exact Hrun |]. by rewrite HsA.
Qed.

Lemma cycle_terminates_one_source_each_witness :
  (forall fuel b st,
     create_translations (site cycle_AB no_failure) 7 [1; 2] (S (S fuel))
       (snippet 1) b st <> OutOfFuel) /\
  (forall fuel st st',
     key_of (site cycle_AB no_failure) (snippet 1) ∉ seen_objects st ->
     create_translations (site cycle_AB no_failure) 7 [1; 2] (S fuel)
       (snippet 1) true st = Returns (tt, st') ->
     exists s c st1 st2,
       enter (site cycle_AB no_failure)
             (concrete (site cycle_AB no_failure) (snippet 1)) st
       = Returns ((s, c), st1) /\
       key_of (site cycle_AB no_failure) (snippet 1) ∈ seen_objects st1 /\
       for_each (submit_related (site cycle_AB no_failure) 7 [1; 2] fuel
                   (concrete (site cycle_AB no_failure) (snippet 1)))
                (relatedobjectsegment_set (site cycle_AB no_failure) s) st1
       = Returns (tt, st2)) /\
  exists st',
    (forall fuel, 2 <= fuel ->
       create_translations (site cycle_AB no_failure) 7 [1; 2] fuel
         (snippet 1) true (TranslationCreator_init empty_db)
       = Returns (tt, st')) /\
    count_sources 1 (db st') = 1 /\
    count_sources 2 (db st') = 1.
Proof.
  apply (cycle_terminates_one_source_each (site cycle_AB no_failure) 7 [1; 2]
           (snippet 1) (snippet 2) empty_db).
  - intros op. reflexivity.
  - vm_compute. lia.
  - reflexivity.
  - reflexivity.
  - intros r Hr. vm_compute. eauto.
  - exists 2. split; [vm_compute; left | reflexivity].
  - exists 1. split; [vm_compute; left | reflexivity].
Defined.

(** ** C2: one level of related objects *)

(** C2. When A has B as a related object and B has C, and C is not itself
    a related object of A, submitting A returns with one source for A, one
    for B and none for C: the call for B does not expand B's related
    objects. *)
Theorem related_objects_one_level
    (w : World) (user : User) (target_locales : list Locale)
    (A B C : Instance) (d : Database) :
  no_storage_failure w ->
  find_source (key_of w A) d = None ->
  find_source (key_of w B) d = None ->
  find_source (key_of w C) d = None ->
  related_resolve w A (new_source w A) ->
  has_related w A (new_source w A) B ->
  has_related w B (new_source w B) C ->
  key_of w C <> key_of w A ->
  (forall X, has_related w A (new_source w A) X -> key_of w X <> key_of w C) ->
  exists st',
    (forall fuel, 2 <= fuel ->
       create_translations w user target_locales fuel A true
         (TranslationCreator_init d) = Returns (tt, st')) /\
    count_sources (key_of w A) (db st') = 1 /\
    count_sources (key_of w B) (db st') = 1 /\
    count_sources (key_of w C) (db st') = 0.
Proof.
  intros Hok HnA HnB HnC Hres HAB _ HCA HCrel.
  pose proof (source_for_new w A d HnA) as HsA.
  destruct (create_translations_returns w user target_locales 0 A true
              (TranslationCreator_init d) Hok) as (st' & Hrun).
  { simpl. rewrite HsA. exact Hres. }
  exists st'. split.
  { intros [|[|fuel]] Hfuel; [lia | lia |].
    by rewrite create_translations_fuel. }
  split; [| split].
  - eapply fresh_run_one_source; [exact Hrun | | exact HnA].
    eapply fresh_run_root_seen, Hrun.
  - eapply fresh_run_one_source; [exact Hrun | | exact HnB].
    eapply fresh_run_related_seen; [exact Hrun |]. by rewrite HsA.
  - apply count_sources_absent, find_source_None. intros Hin.
    apply list_elem_of_fmap in Hin as (x & Hk & Hx).
    destruct (create_translations_sources w user target_locales 0 A _ _ x
                Hrun Hx) as [Hd|[HA|(r & ri & Hr & Hg & Hri)]].
    + apply find_source_None in HnC. apply HnC.
      apply list_elem_of_fmap. by exists x.
    + apply HCA. unfold key_of in *. congruence.
    + simpl in Hr. rewrite HsA in Hr.
      apply (HCrel ri); [by exists r | unfold key_of in *; congruence].
Qed.

Lemma related_objects_one_level_witness :
  exists st',
    (forall fuel, 2 <= fuel ->
       create_translations (site chain_ABC no_failure) 7 [1; 2] fuel
         (snippet 1) true (TranslationCreator_init empty_db)
       = Returns (tt, st')) /\
    count_sources 1 (db st') = 1 /\
    count_sources 2 (db st') = 1 /\
    count_sources 3 (db st') = 0.
Proof.
  apply (related_objects_one_level (site chain_ABC no_failure) 7 [1; 2]
           (snippet 1) (snippet 2) (snippet 3) empty_db).
  - intros op. reflexivity.
  - reflexivity.
  - reflexivity.
  - reflexivity.
  - intros r Hr. vm_compute. eauto.
  - exists 2. split; [vm_compute; left | reflexivity].
  - exists 3. split; [vm_compute; left | reflexivity].
  - vm_compute. lia.
  - intros X (r & Hr & Hg). vm_compute in Hr.
    apply list_elem_of_singleton in Hr. subst r.
    vm_compute in Hg. injection Hg as <-. vm_compute. lia.
Defined.

(** ** C10: an empty set of target locales *)

Lemma no_locales_no_translations w user fuel instance b D :
  preserves (fun st => translations (db st) = D /\
                       omap created_translation (trace st) = [] /\
                       omap saved_target (trace st) = [])
            (create_translations w user [] fuel instance b).
Proof.
  apply create_translations_preserves.
  - intros i st [s c] st1 (HD & Hc & Hs) H.
    apply enter_Returns in H as (_ & _ & _ & _ & Htr & Hcase).
    rewrite Htr.
    destruct Hcase as [(_ & _ & _ & ->)|(_ & _ & _ & _ & ->)]; [done|].
    rewrite !omap_app, Hc, Hs. done.
  - intros s l Hl. inversion Hl.
Qed.

(** C10. With no target locale at all, [create_translations] still returns
    and leaves a source for the object and for each of its related objects
    (a new one where there was none); it adds no translation and saves no
    target. *)
Theorem empty_locale_set_creates_sources_only
    (w : World) (user : User) (A : Instance) (d : Database) :
  no_storage_failure w ->
  related_resolve w A (source_for (concrete w A) d) ->
  exists st',
    (forall fuel, 2 <= fuel ->
       create_translations w user [] fuel A true (TranslationCreator_init d)
       = Returns (tt, st')) /\
    translations (db st') = translations d /\
    omap created_translation (trace st') = [] /\
    omap saved_target (trace st') = [] /\
    (forall X, X = A \/ has_related w A (source_for (concrete w A) d) X ->
       is_Some (find_source (key_of w X) (db st')) /\
       (find_source (key_of w X) d = None ->
        count_sources (key_of w X) (db st') = 1)).
Proof.
  intros Hok Hres.
  destruct (create_translations_returns w user [] 0 A true
              (TranslationCreator_init d) Hok) as (st' & Hrun).
  { exact Hres. }
  exists st'. split.
  { intros [|[|fuel]] Hfuel; [lia | lia |].
    by rewrite create_translations_fuel. }
  destruct (no_locales_no_translations w user 2 A true (translations d)
              (TranslationCreator_init d) tt st') as (HD & Hc & Hs);
    [done | exact Hrun |].
  repeat split; try done.
  - eapply fresh_run_has_source; [exact Hrun|].
    destruct H as [->|Hrel];
      [eapply fresh_run_root_seen, Hrun
      | eapply fresh_run_related_seen; [exact Hrun | exact Hrel]].
  - intros Hnone. eapply fresh_run_one_source; [exact Hrun | | exact Hnone].
    destruct H as [->|Hrel];
      [eapply fresh_run_root_seen, Hrun
      | eapply fresh_run_related_seen; [exact Hrun | exact Hrel]].
Qed.

Lemma empty_locale_set_creates_sources_only_witness :
  exists st',
    (forall fuel, 2 <= fuel ->
       create_translations (site chain_ABC no_failure) 7 [] fuel (snippet 1)
         true (TranslationCreator_init empty_db) = Returns (tt, st')) /\
    translations (db st') = [] /\
    omap created_translation (trace st') = [] /\
    omap saved_target (trace st') = [] /\
    (forall X,
       X = snippet 1 \/
       has_related (site chain_ABC no_failure) (snippet 1)
         (source_for (concrete (site chain_ABC no_failure) (snippet 1))
                     empty_db) X ->
       is_Some (find_source (key_of (site chain_ABC no_failure) X) (db st')) /\
       (find_source (key_of (site chain_ABC no_failure) X) empty_db = None ->
        count_sources (key_of (site chain_ABC no_failure) X) (db st') = 1)).
Proof.
  apply (empty_locale_set_creates_sources_only (site chain_ABC no_failure) 7
           (snippet 1) empty_db).
  - intros op. reflexivity.
  - intros r Hr. vm_compute. eauto.
Defined.

(** ** C3: the target is saved when, and only when, the translation is new *)

(** C3. Over any call that returns, the translations whose target was saved
    are exactly the translations the call added to the table, each saved
    once, for the creator's user, and in the order they were added; no target
    is saved for a translation that was in the table before the call. *)
Theorem save_target_exactly_for_new_translations
    (w : World) (user : User) (target_locales : list Locale)
    (fuel : nat) (instance : Instance) (include_related_objects : bool)
    (st st' : State) :
  create_translations w user target_locales fuel instance
    include_related_objects st = Returns (tt, st') ->
  exists evs,
    trace st' = trace st ++ evs /\
    translations (db st')
      = translations (db st) ++ omap created_translation evs /\
    omap saved_target evs
      = (fun t => (t, user)) <$> omap created_translation evs /\
    NoDup (omap saved_target evs) /\
    (forall t u, t ∈ translations (db st) -> SaveTarget t u ∉ evs).
Proof.
  intros Hrun.
  destruct (create_translations_accounted w user target_locales
              (trace st) (db st) fuel instance include_related_objects
              st tt st' (accounted_start user st) Hrun)
    as (evs & HT & _ & HTr & Hsv & _ & _ & Hnd & Hfr).
  exists evs. repeat split; try done.
  - rewrite Hsv. apply NoDup_fmap_2; [| done]. intros t1 t2 [= ->]. done.
  - intros t u Hold Hin.
    assert ((t, u) ∈ omap saved_target evs) as Hs
      by (apply list_elem_of_omap; by exists (SaveTarget t u)).
    rewrite Hsv in Hs. apply list_elem_of_fmap in Hs as (t' & [= <- _] & Ht').
    by apply (Hfr t).
Qed.

Lemma save_target_exactly_for_new_translations_witness :
  exists evs,
    trace resubmitted
      = trace (TranslationCreator_init db_with_translation) ++ evs /\
    translations (db resubmitted)
      = translations (db (TranslationCreator_init db_with_translation))
        ++ omap created_translation evs /\
    omap saved_target evs
      = (fun t => (t, 7)) <$> omap created_translation evs /\
    NoDup (omap saved_target evs) /\
    (forall t u,
       t ∈ translations (db (TranslationCreator_init db_with_translation)) ->
       SaveTarget t u ∉ evs).
Proof.
  apply (save_target_exactly_for_new_translations
           (site cycle_AB no_failure) 7 [1; 2] 2 (snippet 1) true).
  vm_compute. reflexivity.
Defined.

(** ** C4: one source per object, one translation per locale *)

(** C4. A run of a new creator over target locales without repetition adds
    at most one source for any object, and leaves the root's source with
    exactly one translation into each of the locales: as many translations
    into the locales as there are locales. *)
Theorem one_source_per_object_one_task_per_locale
    (w : World) (user : User) (target_locales : list Locale)
    (fuel : nat) (root : Instance) (d : Database) (st' : State) :
  NoDup target_locales ->
  NoDup (translations d) ->
  create_translations w user target_locales fuel root true
    (TranslationCreator_init d) = Returns (tt, st') ->
  exists s,
    sources (db st') = sources d ++ omap created_source (trace st') /\
    (forall k, length (filter (fun x => object_id x = k)
                              (omap created_source (trace st'))) <= 1) /\
    find_source (key_of w root) (db st') = Some s /\
    (forall l, l ∈ target_locales ->
               count_translations (mkTranslation s l) (db st') = 1) /\
    length (filter (fun t => source t = s /\ target_locale t ∈ target_locales)
                   (translations (db st')))
    = length target_locales.
Proof.
  intros Hls Hd Hrun.
  destruct (create_translations_accounted w user target_locales [] d fuel root
              true _ tt st'
              (accounted_start user (TranslationCreator_init d)) Hrun)
    as [evs Hled].
  pose proof (ledger_NoDup_translations _ _ _ _ _ Hled Hd) as Hnd.
  destruct Hled as (HT & HS & _ & _ & HndS & _). simpl in HT. subst evs.
  destruct fuel as [|fuel]; [discriminate|].
  apply create_translations_Returns in Hrun
    as [[Hin _]|(_ & s & c & st1 & st2 & H1 & H2 & H3)];
    [by apply not_elem_of_empty in Hin|].
  apply enter_Returns in H1 as (_ & _ & Hf1 & _).
  assert (find_source (key_of w root) (db st2) = Some s) as Hf2.
  { eapply (preserves_for_each
              (fun x => find_source (key_of w root) (db x) = Some s));
      [| exact Hf1 | exact H2].
    intros r _ sta [] stb Ha Hr.
    apply submit_related_Returns in Hr as (ri & _ & Hr).
    eapply create_translations_keeps_source; eauto. }
  assert (forall l, l ∈ target_locales ->
                    mkTranslation s l ∈ translations (db st')) as Hcov
    by (intros l Hl; by eapply locale_loop_covers).
  exists s. repeat split.
  - exact HS.
  - intros k. by apply filter_key_NoDup.
  - unfold find_source in *.
    by rewrite (locale_loop_sources _ _ _ _ _ _ H3).
  - intros l Hl. apply count_translations_NoDup; [done | by apply Hcov].
  - by apply translations_of_source_length.
Qed.

Lemma one_source_per_object_one_task_per_locale_witness :
  exists s,
    sources (db fanned_out)
      = sources db_with_translation
        ++ omap created_source (trace fanned_out) /\
    (forall k, length (filter (fun x => object_id x = k)
                              (omap created_source (trace fanned_out))) <= 1) /\
    find_source (key_of (site cycle_AB no_failure) (snippet 1))
                (db fanned_out) = Some s /\
    (forall l, l ∈ [1; 2; 3] ->
               count_translations (mkTranslation s l) (db fanned_out) = 1) /\
    length (filter (fun t => source t = s /\ target_locale t ∈ [1; 2; 3])
                   (translations (db fanned_out)))
    = length [1; 2; 3].
Proof.
  apply (one_source_per_object_one_task_per_locale
           (site cycle_AB no_failure) 7 [1; 2; 3] 2 (snippet 1)
           db_with_translation).
  - apply (bool_decide_unpack _). vm_compute. exact I.
  - apply (bool_decide_unpack _). vm_compute. exact I.
  - vm_compute. reflexivity.
Defined.

(** ** C6: related objects first *)

(** C6. In a call that expands related objects, every event about another
    object (the creation of its source, of its translations, the saving of
    their targets) comes before the creation of any translation of the
    call's own object. *)
Theorem related_objects_before_own_translations
    (w : World) (user : User) (target_locales : list Locale)
    (fuel : nat) (instance : Instance) (st st' : State) :
  create_translations w user target_locales fuel instance true st
  = Returns (tt, st') ->
  exists evs,
    trace st' = trace st ++ evs /\
    forall n m e t,
      evs !! n = Some e ->
      evs !! m = Some (TranslationCreated t) ->
      object_id (event_source e) <> key_of w instance ->
      object_id (source t) = key_of w instance ->
      n < m.
Proof.
  intros Hrun. destruct fuel as [|fuel]; [discriminate|].
  apply create_translations_events in Hrun
    as (pre & post & Htr & Hpre & Hpost).
  exists (pre ++ post). split; [done|].
  intros n m e t Hn Hm Hother Hown.
  assert (n < length pre) as Hn'.
  { destruct (decide (n < length pre)) as [|Hge]; [done|].
    rewrite lookup_app_r in Hn by lia.
    rewrite Forall_lookup in Hpost. by apply Hpost in Hn. }
  assert (length pre <= m) as Hm'.
  { destruct (decide (length pre <= m)) as [|Hlt]; [done|].
    rewrite lookup_app_l in Hm by lia.
    rewrite Forall_lookup in Hpre. apply Hpre in Hm as [Hm|Hm];
      [discriminate | done]. }
  lia.
Qed.

Lemma related_objects_before_own_translations_witness :
  exists evs,
    trace resubmitted
      = trace (TranslationCreator_init db_with_translation) ++ evs /\
    forall n m e t,
      evs !! n = Some e ->
      evs !! m = Some (TranslationCreated t) ->
      object_id (event_source e)
        <> key_of (site cycle_AB no_failure) (snippet 1) ->
      object_id (source t) = key_of (site cycle_AB no_failure) (snippet 1) ->
      n < m.
Proof.
  apply (related_objects_before_own_translations
           (site cycle_AB no_failure) 7 [1; 2] 2 (snippet 1)).
  vm_compute. reflexivity.
Defined.

(** ** C9: an object seen as a related object is not expanded later *)

(** C9. Once a call that does not expand related objects has returned for
    an object, the object is in the seen set, and every later call of the
    creator for it, whether or not it asks for related objects, returns at
    once and changes nothing. So the order of the calls decides which
    sources exist: with A related to B and B related to C, submitting A and
    then B leaves C without a source, submitting B and then A gives C one. *)
Theorem seen_as_related_is_never_expanded
    (w : World) (user : User) (target_locales : list Locale)
    (fuel : nat) (instance : Instance) (st st1 : State) :
  create_translations w user target_locales fuel instance false st
  = Returns (tt, st1) ->
  key_of w instance ∈ seen_objects st1 /\
  (forall st2 fuel' include_related_objects,
     seen_objects st1 ⊆ seen_objects st2 ->
     create_translations w user target_locales (S fuel') instance
       include_related_objects st2 = Returns (tt, st2)) /\
  count_sources 3
    (db (final_state (submit_both (site chain_ABC no_failure)
                        (snippet 1) (snippet 2)
                        (TranslationCreator_init empty_db)))) = 0 /\
  count_sources 3
    (db (final_state (submit_both (site chain_ABC no_failure)
                        (snippet 2) (snippet 1)
                        (TranslationCreator_init empty_db)))) = 1.
Proof.
  intros Hrun. destruct fuel as [|fuel]; [discriminate|].
  pose proof (create_translations_marks _ _ _ _ _ _ _ _ Hrun) as Hin.
  split; [exact Hin | split; [| split]].
  - intros st2 fuel' b Hsub. apply create_translations_seen.
    by apply Hsub.
  - vm_compute. reflexivity.
  - vm_compute. reflexivity.
Qed.

Lemma seen_as_related_is_never_expanded_witness :
  key_of (site chain_ABC no_failure) (snippet 2)
    ∈ seen_objects
        (final_state
           (create_translations (site chain_ABC no_failure) 7 [1] 1
              (snippet 2) false (TranslationCreator_init empty_db))) /\
  (forall st2 fuel' include_related_objects,
     seen_objects
       (final_state
          (create_translations (site chain_ABC no_failure) 7 [1] 1
             (snippet 2) false (TranslationCreator_init empty_db)))
     ⊆ seen_objects st2 ->
     create_translations (site chain_ABC no_failure) 7 [1] (S fuel')
       (snippet 2) include_related_objects st2 = Returns (tt, st2)) /\
  count_sources 3
    (db (final_state (submit_both (site chain_ABC no_failure)
                        (snippet 1) (snippet 2)
                        (TranslationCreator_init empty_db)))) = 0 /\
  count_sources 3
    (db (final_state (submit_both (site chain_ABC no_failure)
                        (snippet 2) (snippet 1)
                        (TranslationCreator_init empty_db)))) = 1.
Proof.
  apply (seen_as_related_is_never_expanded (site chain_ABC no_failure) 7 [1]
           1 (snippet 2) (TranslationCreator_init empty_db)).
  vm_compute. reflexivity.
Defined.

(** ** The block of [post] *)

Lemma post_block_preserves (P : State -> Prop) w fuel user object data :
  (forall instance, preserves P (enter w instance)) ->
  (forall s l, l ∈ cleaned_locales w (node_instance object) data ->
               preserves P (submit_locale w user s l)) ->
  preserves P (post_block w fuel user object data).
Proof.
  intros He Hl. unfold post_block.
  apply preserves_bind; [by apply create_translations_preserves | intros _].
  apply preserves_bind; [| intros _; apply hoare_ret].
  destruct (is_page _); [| apply hoare_ret].
  destruct (post_include_subtree _); [| apply hoare_ret].
  apply _walk_preserves. intros i. by apply create_translations_preserves.
Qed.

Lemma cleaned_locales_exclude_own w instance data l :
  l ∈ cleaned_locales w instance data -> l <> locale instance.
Proof.
  unfold cleaned_locales, locales_queryset.
  rewrite !list_elem_of_filter. by intros (_ & Hne & _).
Qed.

(** ** C7: the object's own locale *)

(** C7, as stated, fails: [create_translations] takes the creator's target
    locales as they are. Given locale 0 for an object of locale 0 it creates
    the translation of the object into its own locale. *)
Lemma create_translations_accepts_own_locale :
  exists st',
    create_translations (site cycle_AB no_failure) 7 [0] 2 (snippet 1) true
      (TranslationCreator_init empty_db) = Returns (tt, st') /\
    TranslationCreated (mkTranslation (mkSource 1 0) 0) ∈ trace st' /\
    mkTranslation (mkSource 1 0) 0 ∈ translations (db st') /\
    target_locale (mkTranslation (mkSource 1 0) 0) = locale (snippet 1).
Proof.
  eexists. split; [vm_compute; reflexivity|].
  split; [| split; [| reflexivity]].
  - do 4 apply list_elem_of_further. apply list_elem_of_here.
  - apply list_elem_of_further, list_elem_of_here.
Qed.

(** C7, amended. In a run started by [post], every translation added to
    the table has a target locale other than the locale of the submitted
    object: the target locales are the form's cleaned locales, drawn from a
    queryset that leaves that locale out. *)
Theorem post_never_translates_into_own_locale
    (w : World) (fuel : nat) (user : User) (object : TreeNode)
    (data : PostData) (d d' : Database) (out : Outcome Response) :
  post w fuel user object data d = (out, d') ->
  forall t, t ∈ translations d' ->
    t ∈ translations d \/ target_locale t <> locale (node_instance object).
Proof.
  unfold post, atomic. intros Hpost.
  destruct (is_valid _ _ _); [| injection Hpost as <- <-; by left].
  destruct (post_block _ _ _ _ _ _) as [[r st]|e|] eqn:E;
    injection Hpost as <- <-; try by left.
  intros t Ht.
  assert (t ∈ translations d \/
          target_locale t ∈ cleaned_locales w (node_instance object) data)
    as [?|Hl]; [| by left | right; by eapply cleaned_locales_exclude_own].
  revert t Ht.
  eapply (post_block_preserves
            (fun st => forall t, t ∈ translations (db st) ->
               t ∈ translations d \/
               target_locale t ∈ cleaned_locales w (node_instance object) data));
    [| | | exact E].
  - intros i sta [s c] stb HP H t Ht.
    apply enter_Returns in H as (_ & _ & _ & _ & Htr & _).
    rewrite Htr in Ht. by apply HP.
  - intros s l Hl sta [] stb HP H t Ht.
    apply submit_locale_Returns in H as (_ & _ & _ & _ & Hcase).
    destruct Hcase as [(_ & Htr & _)|(_ & _ & Htr & _)]; rewrite Htr in Ht;
      [by apply HP|].
    apply elem_of_app in Ht as [Ht|Ht]; [by apply HP|].
    apply list_elem_of_singleton in Ht as ->. by right.
  - intros t Ht. by left.
Qed.

Lemma post_never_translates_into_own_locale_witness :
  (post (site chain_ABC no_failure) 2 7 two_pages (mkPostData [1; 2] true)
        empty_db).1 = Returns Redirect /\
  forall t,
    t ∈ translations
          (post (site chain_ABC no_failure) 2 7 two_pages
                (mkPostData [1; 2] true) empty_db).2 ->
    t ∈ translations empty_db \/
    target_locale t <> locale (node_instance two_pages).
Proof.
  split; [vm_compute; reflexivity|].
  apply (post_never_translates_into_own_locale (site chain_ABC no_failure)
           2 7 two_pages (mkPostData [1; 2] true) empty_db _
           (Returns Redirect)).
  vm_compute. reflexivity.
Defined.

(** ** C5: submitting again *)

Lemma related_loop_without_fuel w user target_locales instance rs st st' :
  for_each (submit_related w user target_locales 0 instance) rs st
  = Returns (tt, st') -> rs = [].
Proof.
  destruct rs as [|r rs]; [done|]. simpl. intros H.
  apply bind_Returns in H as ([] & st1 & H1 & _).
  apply submit_related_Returns in H1 as (ri & _ & H1). discriminate.
Qed.

(** With any fuel, the related objects of the source of an instance not yet
    seen are in the seen set when the call returns. *)
Lemma create_translations_marks_related_fuel w user target_locales fuel
    instance st st' r ri :
  create_translations w user target_locales fuel instance true st
  = Returns (tt, st') ->
  translation_key (concrete w instance) ∉ seen_objects st ->
  r ∈ relatedobjectsegment_set w (source_for (concrete w instance) (db st)) ->
  get_instance w r (locale (concrete w instance)) = Some ri ->
  translation_key (concrete w ri) ∈ seen_objects st'.
Proof.
  intros Hrun Hfresh Hr Hg. destruct fuel as [|[|fuel]]; [discriminate | |].
  - apply create_translations_Returns in Hrun
      as [[Hin _]|(_ & s & c & st1 & st2 & H1 & H2 & _)]; [done|].
    apply enter_source_for in H1 as ->.
    apply related_loop_without_fuel in H2. rewrite H2 in Hr. inversion Hr.
  - by eapply create_translations_marks_related.
Qed.

(** C5. Over tables without duplicates, a second run of a new creator on
    the same root, over the database the first run left, returns, sees the
    same objects and adds nothing: the database is unchanged and the trace
    is empty. The root and the related objects of its source are among the
    objects seen, and every object seen has then exactly one source and
    exactly one translation of it into each target locale. *)
Theorem resubmission_adds_nothing
    (w : World) (user : User) (target_locales : list Locale)
    (fuel : nat) (root : Instance) (d : Database) (st1 : State) :
  NoDup (object_id <$> sources d) ->
  NoDup (translations d) ->
  create_translations w user target_locales fuel root true
    (TranslationCreator_init d) = Returns (tt, st1) ->
  exists st2,
    create_translations w user target_locales fuel root true
      (TranslationCreator_init (db st1)) = Returns (tt, st2) /\
    db st2 = db st1 /\
    trace st2 = [] /\
    seen_objects st2 = seen_objects st1 /\
    (forall X,
       X = root \/ has_related w root (source_for (concrete w root) d) X ->
       key_of w X ∈ seen_objects st2) /\
    forall k, k ∈ seen_objects st2 ->
      exists s,
        find_source k (db st2) = Some s /\
        count_sources k (db st2) = 1 /\
        forall l, l ∈ target_locales ->
                  count_translations (mkTranslation s l) (db st2) = 1.
Proof.
  intros HndS HndT Hrun.
  destruct (create_translations_replay w user target_locales (db st1) []
              fuel root true _ _ (TranslationCreator_init (db st1)) Hrun)
    as (st2 & Hrun2 & Hseen & Hdb & Htr);
    [apply db_prefix_refl | done |].
  exists st2. do 4 (split; [done|]). split.
  { intros X HX. rewrite Hseen. destruct HX as [->|(r & Hr & Hg)].
    - destruct fuel as [|fuel]; [discriminate|].
      eapply create_translations_marks, Hrun.
    - eapply create_translations_marks_related_fuel;
        [exact Hrun | simpl; apply not_elem_of_empty | exact Hr | exact Hg]. }
  destruct (create_translations_accounted w user target_locales [] d fuel root
              true _ tt st1
              (accounted_start user (TranslationCreator_init d)) Hrun)
    as [evs Hled].
  pose proof (ledger_NoDup_sources _ _ _ _ _ Hled HndS) as HS.
  pose proof (ledger_NoDup_translations _ _ _ _ _ Hled HndT) as HT.
  intros k Hk. rewrite Hseen in Hk. rewrite Hdb.
  destruct (create_translations_settles w user target_locales ∅ fuel root true
              (TranslationCreator_init d) tt st1) with (k := k)
    as (s & Hf & Hl); [| exact Hrun | exact Hk | apply not_elem_of_empty |].
  { intros k' Hk'. simpl in Hk'. by apply not_elem_of_empty in Hk'. }
  exists s. repeat split; [done | |].
  - apply Nat.le_antisymm.
    + by apply filter_key_NoDup.
    + apply count_sources_found. by exists s.
  - intros l Hin. apply count_translations_NoDup; [done | by apply Hl].
Qed.

Lemma resubmission_adds_nothing_witness :
  exists st2,
    create_translations (site cycle_AB no_failure) 7 [1; 2] 2 (snippet 1) true
      (TranslationCreator_init (db resubmitted)) = Returns (tt, st2) /\
    db st2 = db resubmitted /\
    trace st2 = [] /\
    seen_objects st2 = seen_objects resubmitted /\
    (forall X,
       X = snippet 1 \/
       has_related (site cycle_AB no_failure) (snippet 1)
         (source_for (concrete (site cycle_AB no_failure) (snippet 1))
                     db_with_translation) X ->
       key_of (site cycle_AB no_failure) X ∈ seen_objects st2) /\
    forall k, k ∈ seen_objects st2 ->
      exists s,
        find_source k (db st2) = Some s /\
        count_sources k (db st2) = 1 /\
        forall l, l ∈ [1; 2] ->
                  count_translations (mkTranslation s l) (db st2) = 1.
Proof.
  apply (resubmission_adds_nothing (site cycle_AB no_failure) 7 [1; 2] 2
           (snippet 1) db_with_translation).
  - apply (bool_decide_unpack _). vm_compute. exact I.
  - apply (bool_decide_unpack _). vm_compute. exact I.
  - vm_compute. reflexivity.
Defined.

(** * The rest of the view *)

Lemma for_each_app {X} (body : X -> M unit) xs ys st :
  for_each body (xs ++ ys) st
  = (do _ <- for_each body xs; for_each body ys) st.
Proof.
  revert st. induction xs as [|x xs IH]; intros st; [reflexivity|].
  simpl. unfold bind in *.
  destruct (body x st) as [[[] st1]| |]; [apply IH | reflexivity..].
Qed.




Lemma submit_related_missing w user target_locales fuel instance r st :
  get_instance w r (locale instance) = None ->
  submit_related w user target_locales fuel instance r st
  = Raises (DoesNotExist r (locale instance)).
Proof.
  intros H. unfold submit_related, bind, resolve_instance. by rewrite H.
Qed.

Section ViewFacts.

Variable w : World.
Variable user : User.
Variable target_locales : list Locale.

#[local] Abbreviation create_translations :=
  (create_translations w user target_locales).
#[local] Abbreviation _walk := (_walk w user target_locales).
#[local] Abbreviation submit_descendants :=
  (submit_descendants w user target_locales).
#[local] Abbreviation concrete := (concrete w).
#[local] Abbreviation submit_locale := (submit_locale w user).
#[local] Abbreviation submit_related := (submit_related w user target_locales).
#[local] Abbreviation enter := (enter w).
#[local] Abbreviation settled_except := (settled_except target_locales).

(** *** The walk over the subtree *)

Lemma _walk_submit_descendants fuel current_page st :
  _walk fuel current_page st = submit_descendants fuel current_page st.
Proof.
  revert st.
  induction current_page as [i cs IH] using TreeNode_forall_ind.
  unfold submit_descendants. rewrite _walk_unfold. simpl.
  induction IH as [|c cs Hc Hcs IHcs]; intros st; [reflexivity|].
  simpl. unfold bind at 1 2 4.
  destruct (create_translations fuel (node_instance c) true st)
    as [[[] st1]| |]; [|done..].
  rewrite for_each_app.
  assert ((if bool_decide (numchild (node_instance c) ≠ 0)
           then _walk fuel c else ret tt) st1
          = for_each (fun page => create_translations fuel
                                    (node_instance page) true)
                     (if bool_decide (numchild (node_instance c) ≠ 0)
                      then walked_pages c else []) st1) as ->.
  { case_bool_decide as Hn; [apply Hc | reflexivity]. }
  unfold bind.
  destruct (for_each _ _ st1) as [[[] st2]| |]; [|done..].
  apply IHcs.
Qed.

Lemma _walk_grows d0 fuel current_page :
  preserves (fun st => db_prefix d0 (db st)) (_walk fuel current_page).
Proof.
  apply _walk_preserves. intros i. apply create_translations_grows.
Qed.

Lemma _walk_seen_mono (S0 : gset TranslationKey) fuel current_page :
  preserves (fun st => S0 ⊆ seen_objects st) (_walk fuel current_page).
Proof.
  apply _walk_preserves. intros i. apply create_translations_seen_mono.
Qed.

Lemma _walk_settles X fuel current_page :
  preserves (settled_except X) (_walk fuel current_page).
Proof.
  apply _walk_preserves. intros i. apply create_translations_settles.
Qed.

Lemma _walk_replay D T fuel current_page st st' st2 :
  _walk fuel current_page st = Returns (tt, st') ->
  db_prefix (db st') D -> replays D T st st2 ->
  exists st2', _walk fuel current_page st2 = Returns (tt, st2') /\
               replays D T st' st2'.
Proof.
  rewrite !_walk_submit_descendants. unfold submit_descendants.
  apply for_each_replay.
  - intros p d0. apply create_translations_grows.
  - intros p sa sb sc _. apply create_translations_replay.
Qed.

(** Every page of the walk is in the seen set after it. *)
Lemma _walk_marks fuel current_page st st' page :
  _walk fuel current_page st = Returns (tt, st') ->
  page ∈ walked_pages current_page ->
  translation_key (concrete (node_instance page)) ∈ seen_objects st'.
Proof.
  rewrite _walk_submit_descendants. unfold submit_descendants.
  generalize (walked_pages current_page). intros pages. revert st.
  induction pages as [|p pages IH]; intros st Hrun Hin; [inversion Hin|].
  simpl in Hrun. apply bind_Returns in Hrun as ([] & st1 & H1 & H2).
  apply elem_of_cons in Hin as [->|Hin]; [| by eapply IH].
  destruct fuel as [|fuel]; [discriminate|].
  apply create_translations_marks in H1. apply singleton_subseteq_l.
  eapply (preserves_for_each (fun x => _ ⊆ seen_objects x));
    [| | exact H2]; [| by apply singleton_subseteq_l].
  intros q _. apply create_translations_seen_mono.
Qed.

(** *** Translations and their sources *)

Lemma sources_present_prefix s d D :
  db_prefix d D -> s ∈ sources d -> s ∈ sources D.
Proof. intros [[xs ->] _] H. apply elem_of_app. by left. Qed.

Lemma submit_locale_sources_present s l :
  preserves (fun st => sources_present (db st) /\ s ∈ sources (db st))
            (submit_locale s l).
Proof.
  intros st [] st' [HP Hs] H.
  apply submit_locale_Returns in H as (_ & _ & Hsrc & _ & Hcase).
  unfold sources_present. rewrite Hsrc. split; [| done].
  destruct Hcase as [(_ & -> & _)|(_ & _ & -> & _)]; [done|].
  intros t Ht. apply elem_of_app in Ht as [Ht|Ht]; [by apply HP|].
  apply list_elem_of_singleton in Ht as ->. done.
Qed.

Lemma create_translations_sources_present fuel instance b :
  preserves (fun st => sources_present (db st))
            (create_translations fuel instance b).
Proof.
  revert instance b. induction fuel as [|fuel IH]; intros i b st [] st' HP Hrun;
    [discriminate|].
  apply create_translations_Returns in Hrun
    as [[_ ->]|(_ & s & c & st1 & st2 & H1 & H2 & H3)]; [done|].
  apply enter_Returns in H1 as (_ & _ & Hf & _ & Htr & Hcase).
  apply find_source_Some in Hf as [Hs1 _].
  assert (sources_present (db st1)) as HP1.
  { intros t Ht. rewrite Htr in Ht. apply HP in Ht.
    destruct Hcase as [(_ & _ & -> & _)|(_ & _ & _ & -> & _)]; [done|].
    apply elem_of_app. by left. }
  assert (sources_present (db st2) /\ s ∈ sources (db st2)) as HP2.
  { destruct b; [| by injection H2 as <-].
    eapply (preserves_for_each
              (fun x => sources_present (db x) /\ s ∈ sources (db x)));
      [| split; [exact HP1 | exact Hs1] | exact H2].
    intros r _ sa [] sb [Ha Hsa] Hr.
    apply submit_related_Returns in Hr as (ri & _ & Hr). split.
    - eapply IH; eauto.
    - eapply sources_present_prefix; [| exact Hsa].
      eapply (create_translations_grows w user target_locales (db sa));
        [apply db_prefix_refl | exact Hr]. }
  eapply (preserves_for_each
            (fun x => sources_present (db x) /\ s ∈ sources (db x)));
    [| exact HP2 | exact H3].
  intros l _. apply submit_locale_sources_present.
Qed.

(** *** A related object that cannot be fetched *)

Lemma related_loop_unresolved fuel instance rs st :
  no_storage_failure w ->
  (exists r, r ∈ rs /\ get_instance w r (locale instance) = None) ->
  exists before r0 after,
    rs = before ++ r0 :: after /\
    (forall r, r ∈ before -> is_Some (get_instance w r (locale instance))) /\
    get_instance w r0 (locale instance) = None /\
    for_each (submit_related (S fuel) instance) rs st
    = Raises (DoesNotExist r0 (locale instance)).
Proof.
  intros Hok. revert st. induction rs as [|r rs IH]; intros st (x & Hx & Hg).
  - inversion Hx.
  - destruct (get_instance w r (locale instance)) as [ri|] eqn:Hr.
    + apply elem_of_cons in Hx as [->|Hx]; [congruence|].
      destruct (create_translations_shallow_returns w user target_locales
                  fuel ri Hok st) as ([] & st1 & H1).
      destruct (IH st1) as (before & r0 & after & -> & Hbefore & Hn & Hrun);
        [by exists x|].
      exists (r :: before), r0, after. split; [done|]. split; [| split; [done|]].
      * intros r' Hr'. apply elem_of_cons in Hr' as [->|Hr'];
          [by rewrite Hr | by apply Hbefore].
      * simpl. rewrite (bind_step _ _ st tt st1); [done|].
        by rewrite (submit_related_step _ _ _ _ _ _ _ _ Hr).
    + exists [], r, rs. split; [done|]. split; [| split; [done|]].
      * intros r' Hr'. inversion Hr'.
      * simpl. apply bind_Raises. by apply submit_related_missing.
Qed.

Lemma create_translations_unresolved fuel instance st :
  no_storage_failure w ->
  translation_key (concrete instance) ∉ seen_objects st ->
  (exists r,
     r ∈ relatedobjectsegment_set w (source_for (concrete instance) (db st))
     /\ get_instance w r (locale (concrete instance)) = None) ->
  exists before r0 after,
    relatedobjectsegment_set w (source_for (concrete instance) (db st))
    = before ++ r0 :: after /\
    (forall r, r ∈ before ->
               is_Some (get_instance w r (locale (concrete instance)))) /\
    get_instance w r0 (locale (concrete instance)) = None /\
    create_translations (S (S fuel)) instance true st
    = Raises (DoesNotExist r0 (locale (concrete instance))).
Proof.
  intros Hok Hfresh Hmiss.
  destruct (enter_returns w (concrete instance) st Hok) as (c & st1 & He).
  destruct (related_loop_unresolved fuel (concrete instance) _ st1 Hok Hmiss)
    as (before & r0 & after & Hsplit & Hbefore & Hn & Hrun).
  exists before, r0, after. split; [done | split; [done | split; [done|]]].
  rewrite create_translations_fresh by done.
  rewrite (bind_step _ _ _ _ _ He). simpl.
  by apply bind_Raises.
Qed.

End ViewFacts.

(** *** [post], step by step *)

Lemma post_block_Returns w fuel user object data st r st' :
  post_block w fuel user object data st = Returns (r, st') ->
  r = Redirect /\
  exists st1,
    create_translations w user (cleaned_locales w (node_instance object) data)
      fuel (node_instance object) true st = Returns (tt, st1) /\
    (if is_page (node_instance object) then
       if post_include_subtree data then
         _walk w user (cleaned_locales w (node_instance object) data) fuel
               object
       else ret tt
     else ret tt) st1 = Returns (tt, st').
Proof.
  unfold post_block. intros H.
  apply bind_Returns in H as ([] & st1 & H1 & H).
  apply bind_Returns in H as ([] & st2 & H2 & [= <- <-]).
  split; [done | by exists st1].
Qed.

Lemma post_Returns_Redirect w fuel user object data d d' :
  post w fuel user object data d = (Returns Redirect, d') ->
  is_valid w (node_instance object) data = true /\
  exists st',
    post_block w fuel user object data (TranslationCreator_init d)
    = Returns (Redirect, st') /\ d' = db st'.
Proof.
  unfold post, atomic. destruct (is_valid _ _ _); [| discriminate].
  destruct (post_block _ _ _ _ _ _) as [[r st]| |]; [| discriminate..].
  intros [= -> <-]. split; [done | by exists st].
Qed.

Lemma post_outcome w fuel user object data d out d' :
  post w fuel user object data d = (out, d') ->
  d' = d \/ out = Returns Redirect.
Proof.
  unfold post, atomic. destruct (is_valid _ _ _); [| intros [= <- <-]; by left].
  destruct (post_block _ _ _ _ _ _) as [[r st]| |] eqn:E;
    intros [= <- <-]; try by left.
  right. by apply post_block_Returns in E as [-> _].
Qed.

Lemma post_block_invariant (P : State -> Prop) w fuel user object data :
  (forall instance b,
     preserves P (create_translations w user
                    (cleaned_locales w (node_instance object) data)
                    fuel instance b)) ->
  preserves P (post_block w fuel user object data).
Proof.
  intros Hc. unfold post_block.
  apply preserves_bind; [apply Hc | intros _].
  apply preserves_bind; [| intros _; apply hoare_ret].
  destruct (is_page _); [| apply hoare_ret].
  destruct (post_include_subtree _); [| apply hoare_ret].
  apply _walk_preserves. intros i. apply Hc.
Qed.

Lemma post_block_replay w fuel user object data D T st r st' st2 :
  post_block w fuel user object data st = Returns (r, st') ->
  db_prefix (db st') D -> replays D T st st2 ->
  exists st2', post_block w fuel user object data st2 = Returns (r, st2') /\
               replays D T st' st2'.
Proof.
  intros H Hp Hr.
  apply post_block_Returns in H as (-> & st1 & H1 & H2).
  assert (db_prefix (db st1) (db st')) as Hg.
  { destruct (is_page _); [| injection H2 as <-; apply db_prefix_refl].
    destruct (post_include_subtree _);
      [| injection H2 as <-; apply db_prefix_refl].
    eapply (_walk_grows w user _ (db st1)); [apply db_prefix_refl | exact H2]. }
  destruct (create_translations_replay w user _ D T _ _ _ _ _ st2 H1)
    as (sa & Ha & Hra); [by eapply db_prefix_trans | done |].
  assert (exists sb,
    (if is_page (node_instance object) then
       if post_include_subtree data then
         _walk w user (cleaned_locales w (node_instance object) data) fuel
               object
       else ret tt
     else ret tt) sa = Returns (tt, sb) /\ replays D T st' sb)
    as (sb & Hb & Hrb).
  { destruct (is_page _); [| injection H2 as <-; by exists sa].
    destruct (post_include_subtree _); [| injection H2 as <-; by exists sa].
    by eapply _walk_replay. }
  exists sb. split; [| done]. unfold post_block.
  rewrite (bind_step _ _ _ _ _ Ha), (bind_step _ _ _ _ _ Hb). reflexivity.
Qed.

Lemma is_valid_cleaned_nonempty w instance data :
  is_valid w instance data = true -> cleaned_locales w instance data <> [].
Proof.
  unfold is_valid. intros H. apply andb_true_iff in H as [Hne Hall].
  apply bool_decide_eq_true in Hne.
  destruct (post_locales data) as [|l ls] eqn:E; [done|].
  simpl in Hall. apply andb_true_iff in Hall as [Hl _].
  apply bool_decide_eq_true in Hl.
  assert (l ∈ cleaned_locales w instance data) as Hin.
  { unfold cleaned_locales. apply list_elem_of_filter.
    split; [rewrite E; left | done]. }
  intros Hnil. rewrite Hnil in Hin. inversion Hin.
Qed.

(** ** Further properties *)


(** With a stale counter the walk leaves pages out: page 2 is stored as
    childless, and page 6 below it is never submitted. *)
Example stale_counter_skips_pages :
  walked_pages stale_tree = [Node (page 2) [Node (page 6) []]; Node (page 5) []]
  /\ get_descendants stale_tree
     = [Node (page 2) [Node (page 6) []]; Node (page 6) []; Node (page 5) []]
  /\ count_sources 6
       (post (site chain_ABC no_failure) 2 7 stale_tree
             (mkPostData [1] true) empty_db).2 = 0.
Proof. repeat split; vm_compute; reflexivity. Qed.

(** X2. When the form hides the [include_subtree] field (the object is not
    a page, or a page with nothing below it), a request that sets the field
    all the same is handled as one that does not. *)
Theorem hidden_subtree_field_changes_nothing
    (w : World) (fuel : nat) (user : User) (object : TreeNode)
    (locales : list Locale) (d : Database) :
  include_subtree_field object = SubtreeHidden ->
  post w fuel user object (mkPostData locales true) d
  = post w fuel user object (mkPostData locales false) d.
Proof.
  unfold include_subtree_field, page_descendant_count. intros Hhidden.
  unfold post, is_valid, atomic, post_block, cleaned_locales. simpl.
  destruct (is_page (node_instance object)) eqn:Hpage; [| reflexivity].
  case_bool_decide as Hn; [discriminate|].
  assert (walked_pages object = []) as Hnil.
  { destruct object as [i [|c cs]]; [done|]. simpl in Hn. lia. }
  destruct (_ && _); [| reflexivity].
  unfold bind.
  destruct (create_translations _ _ _ _ _ _ _) as [[[] st1]| |];
    [| reflexivity..].
  rewrite _walk_submit_descendants. unfold submit_descendants.
  by rewrite Hnil.
Qed.

Lemma hidden_subtree_field_changes_nothing_witness :
  post (site chain_ABC no_failure) 2 7 (Node (snippet 1) [Node (page 2) []])
       (mkPostData [1; 2] true) empty_db
  = post (site chain_ABC no_failure) 2 7 (Node (snippet 1) [Node (page 2) []])
         (mkPostData [1; 2] false) empty_db.
Proof.
  apply (hidden_subtree_field_changes_nothing (site chain_ABC no_failure) 2 7
           (Node (snippet 1) [Node (page 2) []]) [1; 2] empty_db).
  reflexivity.
Defined.

(** X3. A request that chooses no locale, or the locale of the object
    itself, or a locale that does not exist, renders the form again and
    leaves the database as it was. *)
Theorem invalid_selection_writes_nothing
    (w : World) (fuel : nat) (user : User) (object : TreeNode)
    (data : PostData) (d : Database) :
  post_locales data = [] \/
  locale (node_instance object) ∈ post_locales data \/
  (exists l, l ∈ post_locales data /\ l ∉ Locale_objects w) ->
  post w fuel user object data d = (Returns RenderForm, d).
Proof.
  intros Hbad. unfold post.
  assert (is_valid w (node_instance object) data = false) as ->;
    [| reflexivity].
  unfold is_valid. apply andb_false_iff.
  destruct Hbad as [Hnil|Hbad].
  { left. apply bool_decide_eq_false. by intros ?. }
  right.
  assert (exists l, l ∈ post_locales data /\
                    l ∉ locales_queryset w (node_instance object))
    as (l & Hl & Hout).
  { unfold locales_queryset.
    destruct Hbad as [Hown|(l & Hl & Hno)].
    - eexists. split; [exact Hown|].
      rewrite list_elem_of_filter. by intros [? _].
    - exists l. split; [done|].
      rewrite list_elem_of_filter. by intros [_ ?]. }
  destruct (forallb _ _) eqn:E; [| reflexivity].
  rewrite forallb_forall in E.
  specialize (E l (proj1 (list_elem_of_In _ _) Hl)).
  by apply bool_decide_eq_true in E.
Qed.

Lemma invalid_selection_writes_nothing_witness :
  post (site chain_ABC no_failure) 2 7 two_pages (mkPostData [1; 0] true)
       db_with_translation
  = (Returns RenderForm, db_with_translation).
Proof.
  apply (invalid_selection_writes_nothing (site chain_ABC no_failure) 2 7
           two_pages (mkPostData [1; 0] true) db_with_translation).
  right. left. simpl. right. left.
Defined.

(** X4. [dispatch] changes the database only for a user with the
    permission who posts a valid form for an object that exists, and the
    answer is then the redirect; through the snippet view this needs a
    snippet model that is translatable. *)
Theorem dispatch_writes_only_for_permitted_valid_post
    (w : World) (fuel : nat) (has_perms : bool)
    (get_object : option TreeNode) (method : Method) (user : User)
    (data : PostData) (d d' : Database) (res : HttpResult) :
  dispatch w fuel has_perms get_object method user data d = (res, d') ->
  d' <> d ->
  has_perms = true /\ method = POST /\ res = Handled (Returns Redirect) /\
  (exists object,
     get_object = Some object /\
     is_valid w (node_instance object) data = true) /\
  (forall model pk,
     get_object = SubmitSnippetTranslationView_get_object model pk ->
     exists m, model = Some m /\ is_translatable m = true).
Proof.
  unfold dispatch. intros H Hchanged.
  destruct has_perms; simpl in H; [| by injection H as <- <-].
  destruct get_object as [object|]; [| by injection H as <- <-].
  destruct method; try by injection H as <- <-.
  destruct (post w fuel user object data d) as [out d1] eqn:Hpost.
  simpl in H. injection H as <- <-.
  destruct (post_outcome _ _ _ _ _ _ _ _ Hpost) as [-> | ->]; [done|].
  apply post_Returns_Redirect in Hpost as (Hvalid & _).
  do 3 (split; [done|]). split; [by exists object|].
  intros model pk Hobj. unfold SubmitSnippetTranslationView_get_object in Hobj.
  destruct model as [m|]; [| discriminate].
  destruct (is_translatable m) eqn:Ht;
    [by exists m | simpl in Hobj; discriminate].
Qed.

Lemma dispatch_writes_only_for_permitted_valid_post_witness :
  true = true /\ POST = POST /\
  Handled (Returns Redirect) = Handled (Returns Redirect) /\
  (exists object,
     Some two_pages = Some object /\
     is_valid (site chain_ABC no_failure) (node_instance object)
              (mkPostData [1; 2] true) = true) /\
  (forall model pk,
     Some two_pages = SubmitSnippetTranslationView_get_object model pk ->
     exists m, model = Some m /\ is_translatable m = true).
Proof.
  apply (dispatch_writes_only_for_permitted_valid_post
           (site chain_ABC no_failure) 2 true (Some two_pages) POST 7
           (mkPostData [1; 2] true) empty_db
           (post (site chain_ABC no_failure) 2 7 two_pages
                 (mkPostData [1; 2] true) empty_db).2).
  - vm_compute. reflexivity.
  - vm_compute. discriminate.
Defined.

(** X5. Whatever [post] answers, the tables afterwards begin with the rows
    they had: nothing is removed or changed. If no object had two sources
    and no translation was there twice, that still holds afterwards, over
    the submission of the object, of its related objects and of the whole
    subtree. *)
Theorem post_only_appends_and_keeps_rows_unique
    (w : World) (fuel : nat) (user : User) (object : TreeNode)
    (data : PostData) (d d' : Database) (out : Outcome Response) :
  post w fuel user object data d = (out, d') ->
  db_prefix d d' /\
  (NoDup (object_id <$> sources d) -> NoDup (object_id <$> sources d')) /\
  (NoDup (translations d) -> NoDup (translations d')).
Proof.
  intros Hpost.
  destruct (post_outcome _ _ _ _ _ _ _ _ Hpost) as [-> | ->];
    [split; [apply db_prefix_refl | done]|].
  apply post_Returns_Redirect in Hpost as (_ & st' & Hrun & ->).
  destruct (post_block_invariant
              (accounted user [] d) w fuel user object data
              (fun i b => create_translations_accounted w user _ [] d fuel i b)
              _ _ _ (accounted_start user (TranslationCreator_init d)) Hrun)
    as [evs Hled].
  split; [| split].
  - destruct Hled as (_ & HS & HT & _). split; by eexists.
  - by eapply ledger_NoDup_sources.
  - by eapply ledger_NoDup_translations.
Qed.

Lemma post_only_appends_and_keeps_rows_unique_witness :
  db_prefix db_with_translation
    (post (site chain_ABC no_failure) 2 7 small_tree (mkPostData [1; 2] true)
          db_with_translation).2 /\
  (NoDup (object_id <$> sources db_with_translation) ->
   NoDup (object_id <$>
            sources (post (site chain_ABC no_failure) 2 7 small_tree
                          (mkPostData [1; 2] true) db_with_translation).2)) /\
  (NoDup (translations db_with_translation) ->
   NoDup (translations
            (post (site chain_ABC no_failure) 2 7 small_tree
                  (mkPostData [1; 2] true) db_with_translation).2)).
Proof.
  apply (post_only_appends_and_keeps_rows_unique (site chain_ABC no_failure)
           2 7 small_tree (mkPostData [1; 2] true) db_with_translation _
           (Returns Redirect)).
  vm_compute. reflexivity.
Defined.

(** X6. [post] keeps every translation with its source: if each translation
    in the table is of a source in the table before the request, so it is
    after. *)
Theorem post_keeps_translations_with_their_sources
    (w : World) (fuel : nat) (user : User) (object : TreeNode)
    (data : PostData) (d d' : Database) (out : Outcome Response) :
  post w fuel user object data d = (out, d') ->
  sources_present d -> sources_present d'.
Proof.
  intros Hpost Hd.
  destruct (post_outcome _ _ _ _ _ _ _ _ Hpost) as [-> | ->]; [done|].
  apply post_Returns_Redirect in Hpost as (_ & st' & Hrun & ->).
  eapply (post_block_invariant (fun st => sources_present (db st)));
    [| | exact Hrun]; [| exact Hd].
  intros i b. apply create_translations_sources_present.
Qed.

Lemma post_keeps_translations_with_their_sources_witness :
  sources_present
    (post (site chain_ABC no_failure) 2 7 small_tree (mkPostData [1; 2] true)
          db_with_translation).2.
Proof.
  apply (post_keeps_translations_with_their_sources
           (site chain_ABC no_failure) 2 7 small_tree (mkPostData [1; 2] true)
           db_with_translation _ (Returns Redirect)).
  - vm_compute. reflexivity.
  - intros t Ht. apply list_elem_of_singleton in Ht as ->. left.
Defined.

(** X7. Posting the same form again, over the database the first request
    left, is answered with the redirect again and leaves that database as
    it is. *)
Theorem post_again_changes_nothing
    (w : World) (fuel : nat) (user : User) (object : TreeNode)
    (data : PostData) (d d1 : Database) :
  post w fuel user object data d = (Returns Redirect, d1) ->
  post w fuel user object data d1 = (Returns Redirect, d1).
Proof.
  intros Hpost.
  apply post_Returns_Redirect in Hpost as (Hvalid & st' & Hrun & ->).
  destruct (post_block_replay w fuel user object data (db st') [] _ _ _
              (TranslationCreator_init (db st')) Hrun)
    as (st2 & Hrun2 & _ & Hdb & _); [apply db_prefix_refl | done |].
  unfold post, atomic. by rewrite Hvalid, Hrun2, Hdb.
Qed.

Lemma post_again_changes_nothing_witness :
  post (site chain_ABC no_failure) 2 7 small_tree (mkPostData [1; 2] true)
       (post (site chain_ABC no_failure) 2 7 small_tree
             (mkPostData [1; 2] true) empty_db).2
  = (Returns Redirect,
     (post (site chain_ABC no_failure) 2 7 small_tree
           (mkPostData [1; 2] true) empty_db).2).
Proof.
  apply (post_again_changes_nothing (site chain_ABC no_failure) 2 7
           small_tree (mkPostData [1; 2] true) empty_db).
  vm_compute. reflexivity.
Defined.

(** X8. If a related object of the object's source cannot be fetched in
    the object's locale, and the storage layer does not fail, [post] raises
    [DoesNotExist] for the first such object in the order of the related
    objects (every one before it can be fetched) and keeps nothing of what
    was written before it. *)
Theorem missing_related_object_aborts_post
    (w : World) (fuel : nat) (user : User) (object : TreeNode)
    (data : PostData) (d : Database) :
  2 <= fuel ->
  is_valid w (node_instance object) data = true ->
  no_storage_failure w ->
  (exists r,
     r ∈ relatedobjectsegment_set w
           (source_for (concrete w (node_instance object)) d) /\
     get_instance w r (locale_of w (node_instance object)) = None) ->
  exists before r0 after,
    relatedobjectsegment_set w
      (source_for (concrete w (node_instance object)) d)
    = before ++ r0 :: after /\
    (forall r, r ∈ before ->
       is_Some (get_instance w r (locale_of w (node_instance object)))) /\
    get_instance w r0 (locale_of w (node_instance object)) = None /\
    post w fuel user object data d
    = (Raises (DoesNotExist r0 (locale_of w (node_instance object))), d).
Proof.
  intros Hfuel Hvalid Hok Hmiss.
  destruct fuel as [|[|fuel]]; [lia | lia |].
  destruct (create_translations_unresolved w user
              (cleaned_locales w (node_instance object) data) fuel
              (node_instance object) (TranslationCreator_init d) Hok)
    as (before & r0 & after & Hsplit & Hbefore & Hnone & Hrun);
    [simpl; apply not_elem_of_empty | exact Hmiss |].
  exists before, r0, after.
  split; [done | split; [done | split; [done|]]].
  unfold post, atomic, post_block. rewrite Hvalid.
  by rewrite (bind_Raises _ _ _ _ Hrun).
Qed.

Lemma missing_related_object_aborts_post_witness :
  exists before r0 after,
    relatedobjectsegment_set missing_9
      (source_for (concrete missing_9 (node_instance two_pages)) empty_db)
    = before ++ r0 :: after /\
    (forall r, r ∈ before ->
       is_Some (get_instance missing_9 r
                  (locale_of missing_9 (node_instance two_pages)))) /\
    get_instance missing_9 r0 (locale_of missing_9 (node_instance two_pages))
    = None /\
    post missing_9 2 7 two_pages (mkPostData [1; 2] true) empty_db
    = (Raises (DoesNotExist r0 (locale_of missing_9
                                          (node_instance two_pages))),
       empty_db).
Proof.
  apply (missing_related_object_aborts_post missing_9 2 7 two_pages
           (mkPostData [1; 2] true) empty_db).
  - lia.
  - vm_compute. reflexivity.
  - intros op. reflexivity.
  - exists 8. split; [vm_compute; do 3 right; left | reflexivity].
Defined.

(** Of the two related objects that cannot be fetched, 9 and 8, it is 9,
    the earlier one, that [post] reports. *)
Example first_missing_related_object_is_reported :
  relatedobjectsegment_set missing_9 (mkSource 1 0) = [2; 9; 3; 8] /\
  post missing_9 2 7 two_pages (mkPostData [1; 2] true) empty_db
  = (Raises (DoesNotExist 9 0), empty_db).
Proof. split; vm_compute; reflexivity. Qed.



(** X10. The locales text of the success message is always defined; after
    a valid form it is the display name of the locale when exactly one was
    chosen, and otherwise a count of at least two. *)
Theorem success_message_names_one_locale_or_counts_several
    (w : World) (instance : Instance) (data : PostData) :
  is_valid w instance data = true ->
  (forall locales, is_Some (success_locales locales)) /\
  exists text,
    success_locales (cleaned_locales w instance data) = Some text /\
    match text with
    | LocaleDisplayName l => cleaned_locales w instance data = [l]
    | LocalesCount n =>
        n = length (cleaned_locales w instance data) /\ 2 <= n
    end.
Proof.
  intros Hvalid. split.
  { intros ls. unfold success_locales. case_bool_decide; [| by eexists].
    destruct ls as [|l ls]; [discriminate | by eexists]. }
  apply is_valid_cleaned_nonempty in Hvalid.
  unfold success_locales.
  destruct (cleaned_locales w instance data) as [|l [|l' ls]]; [done | |].
  - exists (LocaleDisplayName l). by rewrite bool_decide_eq_true_2.
  - eexists. rewrite bool_decide_eq_false_2 by (simpl; lia).
    split; [reflexivity|]. simpl. split; [done | lia].
Qed.

Lemma success_message_names_one_locale_or_counts_several_witness :
  (forall locales, is_Some (success_locales locales)) /\
  exists text,
    success_locales (cleaned_locales (site chain_ABC no_failure) (page 1)
                                     (mkPostData [3; 1] true)) = Some text /\
    match text with
    | LocaleDisplayName l =>
        cleaned_locales (site chain_ABC no_failure) (page 1)
                        (mkPostData [3; 1] true) = [l]
    | LocalesCount n =>
        n = length (cleaned_locales (site chain_ABC no_failure) (page 1)
                                    (mkPostData [3; 1] true)) /\ 2 <= n
    end.
Proof.
  apply (success_message_names_one_locale_or_counts_several
           (site chain_ABC no_failure) (page 1) (mkPostData [3; 1] true)).
  vm_compute. reflexivity.
Defined.

(** *** What a call adds to the seen set *)

Lemma create_translations_shallow_seen w user target_locales fuel instance
    st st' :
  create_translations w user target_locales (S fuel) instance false st
  = Returns (tt, st') ->
  seen_objects st' = {[key_of w instance]} ∪ seen_objects st.
Proof.
  intros Hrun.
  apply create_translations_Returns in Hrun
    as [[Hin ->]|(_ & s & c & st1 & st2 & H1 & H2 & H3)].
  - apply set_eq. intros k. rewrite elem_of_union, elem_of_singleton.
    split; [by right | intros [->|?]; done].
  - injection H2 as <-. rewrite (locale_loop_seen _ _ _ _ _ _ H3).
    by apply enter_Returns in H1 as (_ & _ & _ & -> & _).
Qed.

Lemma related_loop_seen w user target_locales fuel instance rs st st' k :
  for_each (submit_related w user target_locales (S fuel) instance) rs st
  = Returns (tt, st') ->
  k ∈ seen_objects st' <->
  k ∈ seen_objects st \/
  exists r ri, r ∈ rs /\ get_instance w r (locale instance) = Some ri /\
               k = key_of w ri.
Proof.
  revert st. induction rs as [|r0 rs IH]; intros st Hrun.
  - injection Hrun as <-. split; [by left|].
    intros [?|(r & ri & Hr & _)]; [done | inversion Hr].
  - simpl in Hrun. apply bind_Returns in Hrun as ([] & st1 & H1 & H2).
    apply submit_related_Returns in H1 as (ri0 & Hg0 & H1).
    apply create_translations_shallow_seen in H1.
    rewrite (IH _ H2), H1, elem_of_union, elem_of_singleton. split.
    + intros [[->|?]|(r & ri & Hr & Hg & Hk)].
      * right. exists r0, ri0. split; [left | done].
      * by left.
      * right. exists r, ri. split; [by right | done].
    + intros [?|(r & ri & Hr & Hg & Hk)]; [left; by right|].
      apply elem_of_cons in Hr as [->|Hr].
      * left. left. congruence.
      * right. by exists r, ri.
Qed.

(** X11. A call for an object not yet seen adds to the seen set the key of
    the object and, when it expands related objects, the keys of the related
    objects of its source; it adds no other key and removes none. *)
Theorem seen_set_grows_by_object_and_related
    (w : World) (user : User) (target_locales : list Locale)
    (fuel : nat) (instance : Instance) (include_related_objects : bool)
    (st st' : State) :
  key_of w instance ∉ seen_objects st ->
  create_translations w user target_locales (S (S fuel)) instance
    include_related_objects st = Returns (tt, st') ->
  forall k,
    k ∈ seen_objects st' <->
    k ∈ seen_objects st \/ k = key_of w instance \/
    (include_related_objects = true /\
     exists X,
       has_related w instance (source_for (concrete w instance) (db st)) X /\
       k = key_of w X).
Proof.
  intros Hfresh Hrun k.
  apply create_translations_Returns in Hrun
    as [[Hin _]|(_ & s & c & st1 & st2 & H1 & H2 & H3)]; [done|].
  pose proof (enter_source_for _ _ _ _ _ _ H1) as ->.
  apply enter_Returns in H1 as (_ & _ & _ & Hseen1 & _).
  rewrite (locale_loop_seen _ _ _ _ _ _ H3).
  destruct include_related_objects.
  - rewrite (related_loop_seen _ _ _ _ _ _ _ _ k H2), Hseen1,
      elem_of_union, elem_of_singleton.
    unfold has_related, locale_of. split.
    + intros [[->|?]|(r & ri & Hr & Hg & ->)];
        [right; by left | by left |].
      right. right. split; [done|]. exists ri. split; [by exists r | done].
    + intros [?|[->|(_ & X & (r & Hr & Hg) & ->)]];
        [left; by right | left; by left |].
      right. by exists r, X.
  - injection H2 as <-. rewrite Hseen1, elem_of_union, elem_of_singleton.
    split.
    + intros [->|?]; [right; by left | by left].
    + intros [?|[->|[? _]]]; [by right | by left | done].
Qed.

Lemma seen_set_grows_by_object_and_related_witness :
  (key_of (site cycle_AB no_failure) (snippet 1)
     ∉ seen_objects (TranslationCreator_init db_with_translation)) /\
  forall k,
    k ∈ seen_objects resubmitted <->
    k ∈ seen_objects (TranslationCreator_init db_with_translation) \/
    k = key_of (site cycle_AB no_failure) (snippet 1) \/
    (true = true /\
     exists X,
       has_related (site cycle_AB no_failure) (snippet 1)
         (source_for (concrete (site cycle_AB no_failure) (snippet 1))
                     (db (TranslationCreator_init db_with_translation))) X /\
       k = key_of (site cycle_AB no_failure) X).
Proof.
  split; [apply not_elem_of_empty|].
  apply (seen_set_grows_by_object_and_related (site cycle_AB no_failure) 7
           [1; 2] 0 (snippet 1) true).
  - apply not_elem_of_empty.
  - vm_compute. reflexivity.
Defined.


(** * The transaction of [post] *)

Lemma follows_refl {A} (m : M A) : follows m m.
Proof. by intros st x H. Qed.

Lemma follows_bind {A B} (m m0 : M A) (k k0 : A -> M B) :
  follows m m0 -> (forall a, follows (k a) (k0 a)) ->
  follows (bind m k) (bind m0 k0).
Proof.
  intros Hm Hk st [b st'] H.
  apply bind_Returns in H as (a & st1 & H1 & H2).
  unfold bind. rewrite (Hm _ _ H1). by apply Hk.
Qed.

Lemma follows_for_each {X} (body body0 : X -> M unit) xs :
  (forall x, x ∈ xs -> follows (body x) (body0 x)) ->
  follows (for_each body xs) (for_each body0 xs).
Proof.
  induction xs as [|x xs IH]; intros Hbody; [apply follows_refl|].
  simpl. apply follows_bind; [apply Hbody; left | intros _].
  apply IH. intros y Hy. apply Hbody. by right.
Qed.

Section TransactionFacts.

Variable w : World.
Variable user : User.
Variable target_locales : list Locale.

#[local] Abbreviation create_translations :=
  (create_translations w user target_locales).
#[local] Abbreviation _walk := (_walk w user target_locales).
#[local] Abbreviation concrete := (concrete w).
#[local] Abbreviation submit_locale := (submit_locale w user).
#[local] Abbreviation submit_related := (submit_related w user target_locales).
#[local] Abbreviation enter := (enter w).
#[local] Abbreviation served := (served w target_locales).
#[local] Abbreviation served_except := (served_except w target_locales).

(** *** What a run that returns was given *)

Lemma served_prefix k d D : db_prefix d D -> served k d -> served k D.
Proof.
  intros Hp (Hsrc & s & Hf & Hl). split; [done|]. exists s.
  split; [by eapply find_source_prefix|].
  intros l Hin. destruct (Hl l Hin) as [Hok Ht].
  split; [done | by eapply translations_prefix].
Qed.

Lemma locale_loop_allowed s ls st st' l :
  for_each (submit_locale s) ls st = Returns (tt, st') ->
  l ∈ ls -> storage_fails w (OpTranslation s l) = false.
Proof.
  revert st. induction ls as [|l0 ls IH]; intros st Hrun Hl.
  - inversion Hl.
  - simpl in Hrun. apply bind_Returns in Hrun as ([] & st1 & H1 & H2).
    apply elem_of_cons in Hl as [->|Hl]; [| by eapply IH].
    by apply submit_locale_Returns in H1 as (? & _).
Qed.

Lemma locale_loop_serves s st st' k :
  for_each (submit_locale s) target_locales st = Returns (tt, st') ->
  find_source k (db st) = Some s ->
  storage_fails w (OpSource k) = false ->
  served k (db st').
Proof.
  intros H Hf Hsrc. split; [done|]. exists s. split.
  - unfold find_source in *. by rewrite (locale_loop_sources _ _ _ _ _ _ H).
  - intros l Hl. split.
    + by eapply locale_loop_allowed.
    + by eapply locale_loop_covers.
Qed.

Lemma create_translations_shallow_serves X fuel instance :
  preserves (served_except X) (create_translations fuel instance false).
Proof.
  intros st [] st' HP Hrun. destruct fuel as [|fuel]; [discriminate|].
  apply create_translations_Returns in Hrun
    as [[_ ->]|(_ & s & c & st1 & st2 & H1 & H2 & H3)]; [done|].
  injection H2 as <-.
  assert (db_prefix (db st) (db st')) as Hg.
  { eapply db_prefix_trans.
    - eapply (enter_grows w (db st)); [apply db_prefix_refl | exact H1].
    - eapply for_each_grows; [| exact H3].
      intros l d0. apply submit_locale_grows. }
  apply enter_Returns in H1 as (Hsrc & _ & Hf & Hseen & _).
  intros k Hk HX. rewrite (locale_loop_seen _ _ _ _ _ _ H3), Hseen in Hk.
  apply elem_of_union in Hk as [Hk|Hk].
  - apply elem_of_singleton in Hk as ->.
    by eapply locale_loop_serves.
  - eapply served_prefix; [exact Hg | by apply HP].
Qed.

(** When a call returns, the storage layer has served every object the
    creator has seen, if it had served those seen before the call. *)
Lemma create_translations_serves X fuel instance b :
  preserves (served_except X) (create_translations fuel instance b).
Proof.
  destruct b; [| apply create_translations_shallow_serves].
  intros st [] st' HP Hrun. destruct fuel as [|fuel]; [discriminate|].
  apply create_translations_Returns in Hrun
    as [[_ ->]|(_ & s & c & st1 & st2 & H1 & H2 & H3)]; [done|].
  assert (db_prefix (db st) (db st1)) as Hg1
    by (eapply (enter_grows w (db st)); [apply db_prefix_refl | exact H1]).
  assert (db_prefix (db st2) (db st')) as Hg3.
  { eapply for_each_grows; [| exact H3].
    intros l d0. apply submit_locale_grows. }
  apply enter_Returns in H1 as (Hsrc & _ & Hf & Hseen & _).
  assert (served_except (X ∪ {[translation_key (concrete instance)]}) st1)
    as HP1.
  { intros k Hk HX. rewrite Hseen in Hk.
    apply not_elem_of_union in HX as [HX Hne].
    apply elem_of_union in Hk as [Hk|Hk]; [done|].
    eapply served_prefix; [exact Hg1 | by apply HP]. }
  assert (served_except (X ∪ {[translation_key (concrete instance)]}) st2
          /\ find_source (translation_key (concrete instance)) (db st2)
             = Some s) as [HP2 Hf2].
  { eapply (preserves_for_each
              (fun x => served_except _ x /\ find_source _ (db x) = Some s));
      [| split; [exact HP1 | exact Hf] | exact H2].
    intros r _ sta [] stb [Ha Hfa] Hr.
    apply submit_related_Returns in Hr as (ri & _ & Hr). split.
    - eapply create_translations_shallow_serves; eauto.
    - eapply create_translations_keeps_source; eauto. }
  intros k Hk HX. rewrite (locale_loop_seen _ _ _ _ _ _ H3) in Hk.
  destruct (decide (k = translation_key (concrete instance))) as [->|Hne].
  - by eapply locale_loop_serves.
  - eapply served_prefix; [exact Hg3 |]. apply HP2; [done|].
    apply not_elem_of_union. split; [done|]. by apply not_elem_of_singleton.
Qed.

(** Every target a run saved was accepted by the storage layer. *)
Lemma create_translations_saves_allowed T fuel instance b :
  preserves (emitted T (save_allowed w)) (create_translations fuel instance b).
Proof.
  apply create_translations_preserves.
  - intros i st [s c] st1 HP H.
    apply enter_Returns in H as (_ & _ & _ & _ & _ & Hcase).
    destruct Hcase as [(_ & _ & _ & Htr)|(_ & _ & _ & _ & Htr)].
    + eapply emitted_more; [exact HP | by rewrite Htr, app_nil_r | constructor].
    + eapply emitted_more; [exact HP | exact Htr | by repeat constructor].
  - intros s l _ st [] st1 HP H.
    apply submit_locale_Returns in H as (_ & _ & _ & _ & Hcase).
    destruct Hcase as [(_ & _ & Htr)|(_ & Hok & _ & Htr)].
    + eapply emitted_more; [exact HP | by rewrite Htr, app_nil_r | constructor].
    + eapply emitted_more; [exact HP | exact Htr | by repeat constructor].
Qed.

(** *** Fuel *)

Lemma _walk_fuelled fuel current_page :
  fuelled (_walk (S (S fuel)) current_page).
Proof.
  intros st. rewrite _walk_submit_descendants.
  revert st. apply fuelled_for_each. intros page.
  apply create_translations_fuelled.
Qed.

End TransactionFacts.

Lemma post_block_fuelled w fuel user object data :
  fuelled (post_block w (S (S fuel)) user object data).
Proof.
  unfold post_block.
  apply fuelled_bind; [apply create_translations_fuelled | intros _].
  apply fuelled_bind; [| intros _ st; discriminate].
  destruct (is_page _); [| intros st; discriminate].
  destruct (post_include_subtree _); [| intros st; discriminate].
  apply _walk_fuelled.
Qed.

(** *** The same run without failures *)

Lemma get_or_create_from_instance_follows w instance :
  follows (get_or_create_from_instance w instance)
          (get_or_create_from_instance (without_failures w) instance).
Proof.
  intros st x. unfold get_or_create_from_instance. simpl.
  by destruct (storage_fails w _).
Qed.

Lemma submit_locale_follows w user s l :
  follows (submit_locale w user s l)
          (submit_locale (without_failures w) user s l).
Proof.
  intros st x.
  unfold submit_locale, bind, Translation_get_or_create, save_target. simpl.
  destruct (storage_fails w (OpTranslation s l)); [discriminate|].
  destruct (find_translation s l (db st)); [done|]. simpl.
  by destruct (storage_fails w _).
Qed.

Lemma create_translations_follows w user target_locales fuel instance b :
  follows (create_translations w user target_locales fuel instance b)
          (create_translations (without_failures w) user target_locales fuel
                               instance b).
Proof.
  revert instance b. induction fuel as [|fuel IH]; intros i b.
  { intros st x H. discriminate. }
  rewrite (create_translations_unfold w),
    (create_translations_unfold (without_failures w)).
  change (concrete (without_failures w) i) with (concrete w i).
  apply follows_bind; [apply follows_refl | intros seen].
  destruct (decide _); [apply follows_refl|].
  apply follows_bind; [apply follows_refl | intros _].
  apply follows_bind; [apply get_or_create_from_instance_follows|].
  intros [s c]. apply follows_bind.
  - destruct b; [| apply follows_refl].
    change (relatedobjectsegment_set (without_failures w) s)
      with (relatedobjectsegment_set w s).
    apply follows_for_each. intros r _. unfold submit_related.
    apply follows_bind; [apply follows_refl | intros ri]. apply IH.
  - intros _. apply follows_for_each. intros l _.
    apply submit_locale_follows.
Qed.

Lemma _walk_follows w user target_locales fuel current_page :
  follows (_walk w user target_locales fuel current_page)
          (_walk (without_failures w) user target_locales fuel current_page).
Proof.
  induction current_page as [i cs IH] using TreeNode_forall_ind.
  rewrite (_walk_unfold w), (_walk_unfold (without_failures w)). simpl.
  apply follows_for_each. intros c Hc.
  apply follows_bind; [apply create_translations_follows | intros _].
  destruct (bool_decide _); [| apply follows_refl].
  rewrite Forall_forall in IH. by apply IH.
Qed.

Lemma post_block_follows w fuel user object data :
  follows (post_block w fuel user object data)
          (post_block (without_failures w) fuel user object data).
Proof.
  unfold post_block.
  change (cleaned_locales (without_failures w) (node_instance object) data)
    with (cleaned_locales w (node_instance object) data).
  apply follows_bind; [apply create_translations_follows | intros _].
  apply follows_bind; [| intros _; apply follows_refl].
  destruct (is_page _); [| apply follows_refl].
  destruct (post_include_subtree _); [| apply follows_refl].
  apply _walk_follows.
Qed.

(** *** A request that is answered with the redirect *)

Lemma post_block_marks w fuel user object data d r st' k :
  post_block w (S (S fuel)) user object data (TranslationCreator_init d)
  = Returns (r, st') ->
  submits w object data d k -> k ∈ seen_objects st'.
Proof.
  intros Hrun Hk.
  apply post_block_Returns in Hrun as (_ & st1 & H1 & H2).
  assert (seen_objects st1 ⊆ seen_objects st') as Hsub.
  { destruct (is_page _); [| by injection H2 as <-].
    destruct (post_include_subtree _); [| by injection H2 as <-].
    eapply (_walk_seen_mono w user _ (seen_objects st1)); [| exact H2]. done. }
  destruct Hk as [->|[(X & (x & Hx & Hg) & ->)|(Hpage & Hsubtree & p & Hp & ->)]].
  - apply Hsub. eapply create_translations_marks, H1.
  - apply Hsub.
    eapply (create_translations_marks_related w user _ fuel
              (node_instance object));
      [exact H1 | simpl; apply not_elem_of_empty | exact Hx | exact Hg].
  - rewrite Hpage, Hsubtree in H2. eapply _walk_marks; eauto.
Qed.

(** Nothing the storage layer refuses was needed by a block that returned. *)
Lemma post_block_not_refused w fuel user object data d r st' k :
  post_block w fuel user object data (TranslationCreator_init d)
  = Returns (r, st') ->
  k ∈ seen_objects st' ->
  ~ refused w (cleaned_locales w (node_instance object) data) d k.
Proof.
  intros Hrun Hk Href.
  destruct (post_block_invariant
              (served_except w (cleaned_locales w (node_instance object) data)
                             ∅) w fuel user object data
              (fun i b => create_translations_serves w user _ ∅ fuel i b)
              (TranslationCreator_init d) r st') with (k := k)
    as (Hsrc & s & Hf & Hl); [| exact Hrun | exact Hk | apply not_elem_of_empty |].
  { intros k' Hk'. simpl in Hk'. by apply not_elem_of_empty in Hk'. }
  destruct Href as [Hno|(l & Hin & Hno)]; [congruence|].
  apply find_source_Some in Hf as [_ Hkey].
  destruct (Hl l Hin) as [Hok Ht].
  destruct (Hno s Hkey) as [?|[Hnew Hsave]]; [congruence|].
  destruct (post_block_invariant
              (accounted user [] d) w fuel user object data
              (fun i b => create_translations_accounted w user _ [] d fuel i b)
              _ _ _ (accounted_start user (TranslationCreator_init d)) Hrun)
    as (evs & Htr & _ & HT & Hsaved & _).
  destruct (post_block_invariant
              (emitted [] (save_allowed w)) w fuel user object data
              (fun i b => create_translations_saves_allowed w user _ [] fuel
                            i b)
              (TranslationCreator_init d) r st') as (evs' & Htr' & Hall);
    [by exists [] | exact Hrun |].
  assert (evs' = evs) as -> by (simpl in *; congruence).
  rewrite HT in Ht. apply elem_of_app in Ht as [?|Ht]; [done|].
  assert ((mkTranslation s l, user) ∈ omap saved_target evs) as Hs.
  { rewrite Hsaved. apply list_elem_of_fmap. by eexists. }
  apply list_elem_of_omap in Hs as (e & He & Hse).
  rewrite Forall_forall in Hall. specialize (Hall e He).
  destruct e as [?|?|t u]; try discriminate.
  injection Hse as -> ->. simpl in Hall. congruence.
Qed.

(** ** C8: one transaction *)

(** C8. [post] is all or nothing. With a valid form it either answers with
    the redirect, the database being the one the whole block left, the
    submission of the object and the walk over its subtree together, or it
    raises and the database is the one it started from. It raises, keeping
    nothing, whenever the storage layer refuses a source, a translation or
    the saving of a target that the run needs, for the object itself, for a
    related object of its source, for a page the subtree walk reaches, or
    for any object that the run would see if nothing failed. *)
Theorem post_is_all_or_nothing
    (w : World) (fuel : nat) (user : User) (object : TreeNode)
    (data : PostData) (d : Database) :
  2 <= fuel ->
  is_valid w (node_instance object) data = true ->
  ((exists st',
      post_block w fuel user object data (TranslationCreator_init d)
      = Returns (Redirect, st') /\
      post w fuel user object data d = (Returns Redirect, db st')) \/
   (exists e,
      post_block w fuel user object data (TranslationCreator_init d)
      = Raises e /\
      post w fuel user object data d = (Raises e, d))) /\
  (forall k,
     submits w object data d k ->
     refused w (cleaned_locales w (node_instance object) data) d k ->
     exists e, post w fuel user object data d = (Raises e, d)) /\
  (forall r st0 k,
     post_block (without_failures w) fuel user object data
       (TranslationCreator_init d) = Returns (r, st0) ->
     k ∈ seen_objects st0 ->
     refused w (cleaned_locales w (node_instance object) data) d k ->
     exists e, post w fuel user object data d = (Raises e, d)).
Proof.
  intros Hfuel Hvalid. destruct fuel as [|[|fuel]]; [lia | lia |].
  unfold post, atomic. rewrite Hvalid.
  destruct (post_block w (S (S fuel)) user object data
              (TranslationCreator_init d)) as [[r st']|e|] eqn:Hrun.
  - pose proof (post_block_Returns _ _ _ _ _ _ _ _ Hrun) as [-> _].
    split; [left; by exists st' | split].
    + intros k Hk Href. exfalso.
      eapply post_block_not_refused; [exact Hrun | | exact Href].
      by eapply post_block_marks.
    + intros r st0 k Hrun0 Hk Href. exfalso.
      pose proof (post_block_follows _ _ _ _ _ _ _ Hrun) as Hrun'.
      rewrite Hrun' in Hrun0. injection Hrun0 as <- <-.
      eapply post_block_not_refused; [exact Hrun | exact Hk | exact Href].
  - split; [right; by exists e | split]; intros; by exists e.
  - by apply post_block_fuelled in Hrun.
Qed.

Lemma post_is_all_or_nothing_witness :
  ((exists st',
      post_block (site chain_ABC refuse_fifth) 2 7 small_tree
        (mkPostData [1; 2; 3; 4; 5] true) (TranslationCreator_init empty_db)
      = Returns (Redirect, st') /\
      post (site chain_ABC refuse_fifth) 2 7 small_tree
        (mkPostData [1; 2; 3; 4; 5] true) empty_db
      = (Returns Redirect, db st')) \/
   (exists e,
      post_block (site chain_ABC refuse_fifth) 2 7 small_tree
        (mkPostData [1; 2; 3; 4; 5] true) (TranslationCreator_init empty_db)
      = Raises e /\
      post (site chain_ABC refuse_fifth) 2 7 small_tree
        (mkPostData [1; 2; 3; 4; 5] true) empty_db = (Raises e, empty_db))) /\
  (forall k,
     submits (site chain_ABC refuse_fifth) small_tree
       (mkPostData [1; 2; 3; 4; 5] true) empty_db k ->
     refused (site chain_ABC refuse_fifth)
       (cleaned_locales (site chain_ABC refuse_fifth)
          (node_instance small_tree) (mkPostData [1; 2; 3; 4; 5] true))
       empty_db k ->
     exists e,
       post (site chain_ABC refuse_fifth) 2 7 small_tree
         (mkPostData [1; 2; 3; 4; 5] true) empty_db = (Raises e, empty_db)) /\
  (forall r st0 k,
     post_block (without_failures (site chain_ABC refuse_fifth)) 2 7
       small_tree (mkPostData [1; 2; 3; 4; 5] true)
       (TranslationCreator_init empty_db) = Returns (r, st0) ->
     k ∈ seen_objects st0 ->
     refused (site chain_ABC refuse_fifth)
       (cleaned_locales (site chain_ABC refuse_fifth)
          (node_instance small_tree) (mkPostData [1; 2; 3; 4; 5] true))
       empty_db k ->
     exists e,
       post (site chain_ABC refuse_fifth) 2 7 small_tree
         (mkPostData [1; 2; 3; 4; 5] true) empty_db = (Raises e, empty_db)).
Proof.
  apply (post_is_all_or_nothing (site chain_ABC refuse_fifth) 2 7 small_tree
           (mkPostData [1; 2; 3; 4; 5] true) empty_db).
  - lia.
  - vm_compute. reflexivity.
Defined.

(** The failure of the fifth translation out of five of the object, of the
    source of a page deep in the walk, or of the saving of a target for a
    related object: each undoes the whole run. *)
Example post_rolls_back_on_fifth_locale :
  post (site chain_ABC refuse_fifth) 2 7 two_pages
       (mkPostData [1; 2; 3; 4; 5] true) empty_db
  = (Raises (DatabaseError (OpTranslation (mkSource 1 0) 5)), empty_db).
Proof. vm_compute. reflexivity. Qed.

Example post_rolls_back_on_page_of_the_walk :
  post (site chain_ABC refuse_source_6) 2 7 small_tree
       (mkPostData [1; 2] true) empty_db
  = (Raises (DatabaseError (OpSource 6)), empty_db).
Proof. vm_compute. reflexivity. Qed.

Example post_rolls_back_on_target_of_related_object :
  post (site chain_ABC refuse_save_2) 2 7 small_tree
       (mkPostData [1; 2] true) empty_db
  = (Raises (DatabaseError (OpSaveTarget (mkTranslation (mkSource 2 0) 1))),
     empty_db).
Proof. vm_compute. reflexivity. Qed.
